(** * ToyC: lexer, precedence-climbing parser and LLVM code generation

    A shallow embedding of [src/main.cpp].  The C++ program keeps its whole
    state in globals (the lexer's look-ahead character, [CurTok], the
    precedence table, the module, the builder, the symbol table); here they
    are the fields of one record, [World], threaded through every function.

    The LLVM objects the program drives are modelled at the level of the
    calls the program makes on them:
    - a [Module] is its function list together with its symbol table (name
      to function), including the renaming LLVM performs when a value is
      given a name that is already taken;
    - a [llvm::Function*] is the slot of the function in the module's list;
    - a function carries its own value symbol table: the names of its
      arguments, blocks and instructions, and the counter that makes a
      taken name unique;
    - a [Builder->Create...] call first goes through the builder's constant
      folder: an operation whose operands are constants is evaluated, and
      no instruction is built.  Otherwise the instruction is appended to
      the block at the insertion point, under the name asked for, made
      unique in the function, and returned as a [Value].

    Recursive descent and the main loop are given fuel; running out of it is
    an outcome of its own, distinct from a parse error.  Behaviour that C++
    leaves undefined is an outcome of its own as well. *)

From Stdlib Require Import ZArith Ascii String Floats.SpecFloat Lia.
From stdpp Require Import gmap strings list pretty.


(** ** Characters and [<cctype>] in the "C" locale *)

Definition EOF : Z := (-1)%Z.

Definition isspace (c : Z) : bool :=
  ((c =? 32) || ((9 <=? c) && (c <=? 13)))%Z.

Definition isdigit (c : Z) : bool := ((48 <=? c) && (c <=? 57))%Z.

Definition isalpha (c : Z) : bool :=
  (((65 <=? c) && (c <=? 90)) || ((97 <=? c) && (c <=? 122)))%Z.

Definition isalnum (c : Z) : bool := isalpha c || isdigit c.

Definition isascii (c : Z) : bool := ((0 <=? c) && (c <=? 127))%Z.

(** [int] to [char] and back, for the values [getchar] can return. *)
Definition char_of_int (c : Z) : ascii := ascii_of_N (Z.to_N (c mod 256)).
Definition int_of_char (a : ascii) : Z := Z.of_N (N_of_ascii a).

Definition nl : string := String (ascii_of_nat 10) "".

(** ** Numbers: [double] and [strtod]

    [numVal] is a [double]; it is modelled by the IEEE-754 binary64
    specification of the standard library. *)

Definition double : Type := spec_float.

Definition prec64 : Z := 53.
Definition emax64 : Z := 1024.

(** Digits of a decimal run: value and number of digits read, and the rest. *)
Fixpoint scan_digits (s : string) (acc : N) (n : nat) : N * nat * string :=
  match s with
  | String a s' =>
      if isdigit (int_of_char a)
      then scan_digits s' (acc * 10 + (N_of_ascii a - 48))%N (S n)
      else (acc, n, s)
  | EmptyString => (acc, n, s)
  end.

Definition pow10 (n : nat) : positive := Nat.iter n (Pos.mul 10) 1%positive.

(** [strtod(numStr, 0)] on the strings the lexer builds (digits and dots
    only, so no sign, exponent, hexadecimal or inf/nan form can occur): the
    longest prefix of the form digits [. digits] with at least one digit is
    converted, correctly rounded to nearest-even; when there is no such
    prefix no conversion is performed and the result is zero. *)
Definition strtod (numStr : string) : double :=
  let '(ip, ni, rest) := scan_digits numStr 0%N 0 in
  let '(num, nf, nd) :=
    match rest with
    | String "." rest' =>
        let '(v, n, _) := scan_digits rest' ip 0 in (v, n, (ni + n)%nat)
    | _ => (ip, 0%nat, ni)
    end in
  match nd, num with
  | O, _ => S754_zero false
  | _, N0 => S754_zero false
  | _, Npos p =>
      SFdiv prec64 emax64 (S754_finite false p 0)
        (S754_finite false (pow10 nf) 0)
  end.

(** The implicit conversion [double -> uint64_t] performed when [Val] is
    passed to [llvm::APInt(unsigned, uint64_t, bool)]: truncation toward
    zero; the behaviour is undefined when the truncated value is not
    representable ([None]). *)
Definition double_to_uint64 (d : double) : option Z :=
  match d with
  | S754_zero _ => Some 0%Z
  | S754_finite s m e =>
      let t := Z.shiftl (Zpos m) e in
      if s then (if (t =? 0)%Z then Some 0%Z else None)
      else if (t <? 2 ^ 64)%Z then Some t else None
  | S754_infinity _ | S754_nan => None
  end.

(** ** Abstract syntax (the [ExprAST] class hierarchy) *)

#[local] Unset Elimination Schemes.
Inductive ExprAST : Type :=
| NumberExprAST (Val : double)
| VariableExprAST (Name : string)
| BinaryExprAST (Op : ascii) (LHS RHS : ExprAST)
| CallExprAST (Callee : string) (Args : list ExprAST).
#[local] Set Elimination Schemes.

Record PrototypeAST : Type := mkPrototypeAST {
  getName : string;
  ProtoArgs : list string
}.

Record FunctionAST : Type := mkFunctionAST {
  Proto : PrototypeAST;
  Body : ExprAST
}.

(** ** The LLVM objects *)

Inductive Opcode : Type := OpAdd | OpSub | OpMul.
Inductive Predicate : Type := ICMP_ULT.
Inductive IntegerType : Type := IntegerTy (bits : N).

Definition Int32Ty : IntegerType := IntegerTy 32.

(** [llvm::Value]: constants, function arguments and instructions (an
    instruction is the value it computes).  A function is referred to by its
    slot in the module's function list. *)
#[local] Unset Elimination Schemes.
Inductive Value : Type :=
| ConstantInt (numBits : N) (val : Z)
| Argument (Parent : nat) (ArgNo : nat)
| BinaryOperator (opc : Opcode) (L R : Value) (Name : string)
| ICmpInst (pred : Predicate) (L R : Value) (Name : string)
| ZExtInst (V : Value) (DestTy : IntegerType) (Name : string)
| CallInst (Callee : nat) (Args : list Value) (Name : string)
| ReturnInst (V : Value).
#[local] Set Elimination Schemes.

(** [Value::getName]: only instructions that compute a value are named
    here (an argument's name is kept by its function). *)
Definition getValueName (V : Value) : string :=
  match V with
  | BinaryOperator _ _ _ Name | ICmpInst _ _ _ Name
  | ZExtInst _ _ Name | CallInst _ _ Name => Name
  | ConstantInt _ _ | Argument _ _ | ReturnInst _ => ""
  end.

Definition setValueName (Name : string) (V : Value) : Value :=
  match V with
  | BinaryOperator opc L R _ => BinaryOperator opc L R Name
  | ICmpInst pred L R _ => ICmpInst pred L R Name
  | ZExtInst V' DestTy _ => ZExtInst V' DestTy Name
  | CallInst Callee Args _ => CallInst Callee Args Name
  | ConstantInt _ _ | Argument _ _ | ReturnInst _ => V
  end.

(** [Value::getType]: every argument and every call is of the 32-bit
    integer type ([PrototypeAST::codegen] builds no other function type); a
    return has no value. *)
Fixpoint getType (V : Value) : option IntegerType :=
  match V with
  | ConstantInt numBits _ => Some (IntegerTy numBits)
  | Argument _ _ => Some Int32Ty
  | BinaryOperator _ L _ _ => getType L
  | ICmpInst _ _ _ _ => Some (IntegerTy 1)
  | ZExtInst _ DestTy _ => Some DestTy
  | CallInst _ _ _ => Some Int32Ty
  | ReturnInst _ => None
  end.

Record BasicBlock : Type := mkBasicBlock {
  BBName : string;
  InstList : list Value
}.

(** A function: its name, the names of its arguments, its blocks, and the
    counter of its own value symbol table.  The names in that table are the
    names of the function's arguments, blocks and instructions. *)
Record Function : Type := mkFunction {
  FName : string;
  FArgs : list string;
  BasicBlocks : list BasicBlock;
  FLastUnique : N
}.

(** A module: the functions in creation order ([None] once erased), the
    symbol table and its counter for making names unique. *)
Record Module : Type := mkModule {
  FunctionList : list (option Function);
  ValSymTab : gmap string nat;
  LastUnique : N
}.

Definition emptyModule : Module := mkModule [] ∅ 0.

Inductive Output : Type :=
| Text (s : string)
| PrintedIR (F : Function).

(** ** The globals *)

Record World : Type := mkWorld {
  stdin : string;
  nextChar : Z;
  identifierStr : string;
  numVal : double;
  CurTok : Z;
  BinopPrecedence : gmap ascii Z;
  TheModule : Module;
  InsertPoint : option (nat * nat);
  NamedValues : gmap string (option Value);
  stderr : list Output
}.

Definition initialWorld (input : string) : World :=
  mkWorld input 32 "" (S754_zero false) 0 ∅ emptyModule None ∅ [].

Definition set_lexer (s : string) (c : Z) (w : World) : World :=
  mkWorld s c (identifierStr w) (numVal w) (CurTok w) (BinopPrecedence w)
    (TheModule w) (InsertPoint w) (NamedValues w) (stderr w).
Definition set_identifierStr (x : string) (w : World) : World :=
  mkWorld (stdin w) (nextChar w) x (numVal w) (CurTok w) (BinopPrecedence w)
    (TheModule w) (InsertPoint w) (NamedValues w) (stderr w).
Definition set_numVal (x : double) (w : World) : World :=
  mkWorld (stdin w) (nextChar w) (identifierStr w) x (CurTok w)
    (BinopPrecedence w) (TheModule w) (InsertPoint w) (NamedValues w) (stderr w).
Definition set_CurTok (x : Z) (w : World) : World :=
  mkWorld (stdin w) (nextChar w) (identifierStr w) (numVal w) x
    (BinopPrecedence w) (TheModule w) (InsertPoint w) (NamedValues w) (stderr w).
Definition set_BinopPrecedence (x : gmap ascii Z) (w : World) : World :=
  mkWorld (stdin w) (nextChar w) (identifierStr w) (numVal w) (CurTok w) x
    (TheModule w) (InsertPoint w) (NamedValues w) (stderr w).
Definition set_TheModule (x : Module) (w : World) : World :=
  mkWorld (stdin w) (nextChar w) (identifierStr w) (numVal w) (CurTok w)
    (BinopPrecedence w) x (InsertPoint w) (NamedValues w) (stderr w).
Definition set_InsertPoint (x : option (nat * nat)) (w : World) : World :=
  mkWorld (stdin w) (nextChar w) (identifierStr w) (numVal w) (CurTok w)
    (BinopPrecedence w) (TheModule w) x (NamedValues w) (stderr w).
Definition set_NamedValues (x : gmap string (option Value)) (w : World) : World :=
  mkWorld (stdin w) (nextChar w) (identifierStr w) (numVal w) (CurTok w)
    (BinopPrecedence w) (TheModule w) (InsertPoint w) x (stderr w).
Definition set_stderr (x : list Output) (w : World) : World :=
  mkWorld (stdin w) (nextChar w) (identifierStr w) (numVal w) (CurTok w)
    (BinopPrecedence w) (TheModule w) (InsertPoint w) (NamedValues w) x.

(** ** Outcomes and the state monad of the program *)

Inductive Outcome (A : Type) : Type :=
| Ok (a : A) (w : World)
| OutOfFuel
| Undefined.
Arguments Ok {A} a w.
Arguments OutOfFuel {A}.
Arguments Undefined {A}.

Definition M (A : Type) : Type := World -> Outcome A.

Definition ret {A} (a : A) : M A := fun w => Ok a w.
Definition bind {A B} (m : M A) (k : A -> M B) : M B :=
  fun w => match m w with
           | Ok a w' => k a w'
           | OutOfFuel => OutOfFuel
           | Undefined => Undefined
           end.
Definition gets {A} (f : World -> A) : M A := fun w => Ok (f w) w.
Definition modify (f : World -> World) : M unit := fun w => Ok tt (f w).
Definition undefined {A} : M A := fun _ => Undefined.

Notation "'do' x <- m ; k" := (bind m (fun x => k))
  (at level 10, x name, m at level 100, k at level 200).
Notation "m ;; k" := (bind m (fun _ => k))
  (at level 100, k at level 200, right associativity).

(** [fprintf(stderr, ...)] *)
Definition eprint (o : Output) : M unit :=
  modify (fun w => set_stderr (stderr w ++ [o]) w).

(** ** Lexer *)

Definition tok_eof : Z := (-1)%Z.
Definition tok_def : Z := (-2)%Z.
Definition tok_extern : Z := (-3)%Z.
Definition tok_indentifier : Z := (-4)%Z.
Definition tok_number : Z := (-5)%Z.

(** [getchar()] on the remaining input: the next character, or [EOF]. *)
Definition getchar (s : string) : Z * string :=
  match s with
  | String a s' => (int_of_char a, s')
  | EmptyString => (EOF, EmptyString)
  end.

(** [while (isspace(nextChar)) nextChar = getchar();] *)
Fixpoint skip_whitespace (c : Z) (s : string) : Z * string :=
  if isspace c then
    match s with
    | String a s' => skip_whitespace (int_of_char a) s'
    | EmptyString => (EOF, EmptyString)
    end
  else (c, s).

(** [while (isalnum(nextChar = getchar())) identifierStr += nextChar;] *)
Fixpoint read_identifier (id : string) (s : string) : string * Z * string :=
  match s with
  | String a s' =>
      if isalnum (int_of_char a)
      then read_identifier (id +:+ String a "") s'
      else (id, int_of_char a, s')
  | EmptyString => (id, EOF, EmptyString)
  end.

Definition is_num_char (c : Z) : bool := isdigit c || (c =? 46)%Z.

(** [do { numStr += nextChar; nextChar = getchar(); }
    while (isdigit(nextChar) || nextChar == '.');] *)
Fixpoint read_number (numStr : string) (c : Z) (s : string)
  : string * Z * string :=
  let numStr' := numStr +:+ String (char_of_int c) "" in
  match s with
  | String a s' =>
      if is_num_char (int_of_char a)
      then read_number numStr' (int_of_char a) s'
      else (numStr', int_of_char a, s')
  | EmptyString => (numStr', EOF, EmptyString)
  end.

Definition getok : M Z := fun w =>
  let '(c, s) := skip_whitespace (nextChar w) (stdin w) in
  if isalpha c then
    let '(id, c', s') := read_identifier (String (char_of_int c) "") s in
    let w' := set_identifierStr id (set_lexer s' c' w) in
    if String.eqb id "def" then Ok tok_def w'
    else if String.eqb id "extern" then Ok tok_extern w'
    else Ok tok_indentifier w'
  else if is_num_char c then
    let '(numStr, c', s') := read_number "" c s in
    Ok tok_number (set_numVal (strtod numStr) (set_lexer s' c' w))
  else if (c =? EOF)%Z then Ok tok_eof (set_lexer s c w)
  else
    let '(c', s') := getchar s in
    Ok c (set_lexer s' c' w).

(** ** Parser *)

Definition out_of_fuel {A} : M A := fun _ => OutOfFuel.

Definition getNextToken : M Z :=
  do t <- getok; modify (set_CurTok t);; ret t.

Definition INT_MAX : Z := 2147483647%Z.

(** [BinopPrecedence[CurTok]] is [std::map::operator[]]: a missing key is
    inserted with the value 0. *)
Definition GetTokPrecedence : M Z := fun w =>
  if negb (isascii (CurTok w)) then Ok (-1)%Z w
  else
    let k := char_of_int (CurTok w) in
    let '(TokPrec, tbl) :=
      match BinopPrecedence w !! k with
      | Some p => (p, BinopPrecedence w)
      | None => (0%Z, <[k := 0%Z]> (BinopPrecedence w))
      end in
    let w' := set_BinopPrecedence tbl w in
    if (TokPrec <=? 0)%Z then Ok (-1)%Z w' else Ok TokPrec w'.

Definition LogError {A} (Str : string) : M (option A) :=
  eprint (Text ("Error: " +:+ Str +:+ nl));; ret None.

Definition ParseNumberExpr : M (option ExprAST) :=
  do v <- gets numVal;
  getNextToken;;
  ret (Some (NumberExprAST v)).

Fixpoint ParseExpression (fuel : nat) : M (option ExprAST) :=
  match fuel with
  | O => out_of_fuel
  | S fuel =>
      do LHS <- ParsePrimary fuel;
      match LHS with
      | None => ret None
      | Some LHS => ParseBinOpRHS fuel 0%Z LHS
      end
  end

with ParsePrimary (fuel : nat) : M (option ExprAST) :=
  match fuel with
  | O => out_of_fuel
  | S fuel =>
      do tok <- gets CurTok;
      if (tok =? tok_indentifier)%Z then ParseIdentifierExpr fuel
      else if (tok =? tok_number)%Z then ParseNumberExpr
      else if (tok =? 40)%Z then ParseParenExpr fuel
      else LogError "unknown token when expecting an expression"
  end

with ParseParenExpr (fuel : nat) : M (option ExprAST) :=
  match fuel with
  | O => out_of_fuel
  | S fuel =>
      getNextToken;;
      do V <- ParseExpression fuel;
      match V with
      | None => ret None
      | Some V =>
          do tok <- gets CurTok;
          if negb (tok =? 41)%Z then LogError "expected ')'"
          else getNextToken;; ret (Some V)
      end
  end

with ParseIdentifierExpr (fuel : nat) : M (option ExprAST) :=
  match fuel with
  | O => out_of_fuel
  | S fuel =>
      do IdName <- gets identifierStr;
      getNextToken;;
      do tok <- gets CurTok;
      if negb (tok =? 40)%Z then ret (Some (VariableExprAST IdName))
      else
        getNextToken;;
        do tok <- gets CurTok;
        do Args <- (if negb (tok =? 41)%Z then ParseCallArgs fuel []
                    else ret (Some []));
        match Args with
        | None => ret None
        | Some Args => getNextToken;; ret (Some (CallExprAST IdName Args))
        end
  end

(** The [while (true)] loop of [ParseIdentifierExpr] that collects the
    arguments of a call. *)
with ParseCallArgs (fuel : nat) (Args : list ExprAST)
  : M (option (list ExprAST)) :=
  match fuel with
  | O => out_of_fuel
  | S fuel =>
      do Arg <- ParseExpression fuel;
      match Arg with
      | None => ret None
      | Some Arg =>
          let Args := Args ++ [Arg] in
          do tok <- gets CurTok;
          if (tok =? 41)%Z then ret (Some Args)
          else if negb (tok =? 44)%Z
          then LogError "Expected ')' or ',' in argument list"
          else getNextToken;; ParseCallArgs fuel Args
      end
  end

with ParseBinOpRHS (fuel : nat) (ExprPrec : Z) (LHS : ExprAST)
  : M (option ExprAST) :=
  match fuel with
  | O => out_of_fuel
  | S fuel =>
      do TokPrec <- GetTokPrecedence;
      if (TokPrec <? ExprPrec)%Z then ret (Some LHS)
      else
        do BinOp <- gets CurTok;
        getNextToken;;
        do RHS <- ParsePrimary fuel;
        match RHS with
        | None => ret None
        | Some RHS =>
            do NextPrec <- GetTokPrecedence;
            do RHS <- (if (TokPrec <? NextPrec)%Z
                       then (if (TokPrec =? INT_MAX)%Z then undefined
                             else ParseBinOpRHS fuel (TokPrec + 1)%Z RHS)
                       else ret (Some RHS));
            match RHS with
            | None => ret None
            | Some RHS =>
                ParseBinOpRHS fuel ExprPrec
                  (BinaryExprAST (char_of_int BinOp) LHS RHS)
            end
        end
  end.

(** [while (getNextToken() == tok_indentifier)
      ArgNames.push_back(identifierStr);] *)
Fixpoint ParsePrototypeArgs (fuel : nat) (ArgNames : list string)
  : M (list string) :=
  match fuel with
  | O => out_of_fuel
  | S fuel =>
      do tok <- getNextToken;
      if (tok =? tok_indentifier)%Z then
        do id <- gets identifierStr;
        ParsePrototypeArgs fuel (ArgNames ++ [id])
      else ret ArgNames
  end.

Definition ParsePrototype (fuel : nat) : M (option PrototypeAST) :=
  do tok <- gets CurTok;
  if negb (tok =? tok_indentifier)%Z
  then LogError "Expected function name in prototype"
  else
    do FnName <- gets identifierStr;
    getNextToken;;
    do tok <- gets CurTok;
    if negb (tok =? 40)%Z then LogError "Expected '(' in prototype"
    else
      do ArgNames <- ParsePrototypeArgs fuel [];
      do tok <- gets CurTok;
      if negb (tok =? 41)%Z then LogError "Expected ')' in prototype"
      else getNextToken;; ret (Some (mkPrototypeAST FnName ArgNames)).

Definition ParseDefinition (fuel : nat) : M (option FunctionAST) :=
  getNextToken;;
  do Proto <- ParsePrototype fuel;
  match Proto with
  | None => ret None
  | Some Proto =>
      do E <- ParseExpression fuel;
      match E with
      | Some E => ret (Some (mkFunctionAST Proto E))
      | None => ret None
      end
  end.

Definition ParseExtern (fuel : nat) : M (option PrototypeAST) :=
  getNextToken;; ParsePrototype fuel.

Definition ParseTopLevelExpr (fuel : nat) : M (option FunctionAST) :=
  do E <- ParseExpression fuel;
  match E with
  | Some E => ret (Some (mkFunctionAST (mkPrototypeAST "__anon_expr" []) E))
  | None => ret None
  end.

(** ** The module and the builder *)

(** [ValueSymbolTable::makeUniqueName]: append the next value of the
    table's counter (after a dot for a global value) until the name is
    free.  A table of [n] names rejects at most [n] candidates, so [S n]
    rounds are enough (see [makeUniqueName_fresh]). *)
Fixpoint makeUniqueName (rounds : nat) (dot : bool) (taken : string -> bool)
    (base : string) (last : N) : string * N :=
  let last' := (last + 1)%N in
  let UniqueName := base +:+ (if dot then "." else "") +:+ pretty last' in
  match rounds with
  | O => (UniqueName, last')
  | S rounds =>
      if taken UniqueName then makeUniqueName rounds dot taken base last'
      else (UniqueName, last')
  end.

Definition getFunction (Name : string) (m : Module) : option nat :=
  ValSymTab m !! Name.

Definition lookupFunction (F : nat) (m : Module) : option Function :=
  mjoin (FunctionList m !! F).

(** [Arg.setName] for the arguments of a fresh function, in order, in the
    function's own (initially empty) symbol table: an empty name leaves the
    argument unnamed, a taken name is made unique. *)
Fixpoint setArgNames (Args : list string) (named : list string) (last : N)
  : list string :=
  match Args with
  | [] => named
  | a :: Args =>
      if String.eqb a "" then setArgNames Args (named ++ [a]) last
      else if bool_decide (a ∈ named) then
        let '(a', last') :=
          makeUniqueName (S (length named)) false
            (fun n => bool_decide (n ∈ named)) a last in
        setArgNames Args (named ++ [a']) last'
      else setArgNames Args (named ++ [a]) last
  end.

(** The counter of the function's symbol table after [setArgNames]. *)
Fixpoint setArgNames_last (Args : list string) (named : list string) (last : N)
  : N :=
  match Args with
  | [] => last
  | a :: Args =>
      if String.eqb a "" then setArgNames_last Args (named ++ [a]) last
      else if bool_decide (a ∈ named) then
        let '(a', last') :=
          makeUniqueName (S (length named)) false
            (fun n => bool_decide (n ∈ named)) a last in
        setArgNames_last Args (named ++ [a']) last'
      else setArgNames_last Args (named ++ [a]) last
  end.

(** [llvm::Function::Create(FT, ExternalLinkage, Name, TheModule)]: the new
    function is appended to the module; it takes [Name] when that is free in
    the module's symbol table and a unique variant of it otherwise.  (The
    names [ArgNames] of its arguments, and the counter [Flast] that naming
    them left in the function's symbol table, are those of the loop that
    follows the creation in [PrototypeAST::codegen].) *)
Definition Function_Create (Name : string) (ArgNames : list string)
    (Flast : N) (m : Module) : nat * Module :=
  let F := length (FunctionList m) in
  if String.eqb Name "" then
    (F, mkModule (FunctionList m ++ [Some (mkFunction Name ArgNames [] Flast)])
          (ValSymTab m) (LastUnique m))
  else
    let '(Name', last') :=
      match ValSymTab m !! Name with
      | None => (Name, LastUnique m)
      | Some _ =>
          makeUniqueName (S (size (ValSymTab m))) true
            (fun n => bool_decide (is_Some (ValSymTab m !! n)))
            Name (LastUnique m)
      end in
    (F, mkModule (FunctionList m ++ [Some (mkFunction Name' ArgNames [] Flast)])
          (<[Name' := F]> (ValSymTab m)) last').

(** [F->eraseFromParent()]: the function leaves the list and the symbol
    table.  (A call instruction in another function that refers to it is
    left referring to the empty slot.) *)
Definition eraseFromParent (F : nat) : M unit := fun w =>
  let m := TheModule w in
  match lookupFunction F m with
  | None => Undefined
  | Some Fn =>
      Ok tt (set_TheModule
               (mkModule (<[F := None]> (FunctionList m))
                  (if String.eqb (FName Fn) "" then ValSymTab m
                   else delete (FName Fn) (ValSymTab m))
                  (LastUnique m)) w)
  end.

(** The names in the value symbol table of a function. *)
Definition FunctionSymTab (Fn : Function) : list string :=
  FArgs Fn ++ (BBName <$> BasicBlocks Fn) ++
  (BasicBlocks Fn ≫= fun BB => getValueName <$> InstList BB).

(** [Value::setName] for a value that enters function [Fn]: no name stays
    no name, a free name is taken as it is, and a taken one is made unique
    with the counter of the function's symbol table.  The result is the
    name the value gets and the counter afterwards. *)
Definition uniqueName (Name : string) (Fn : Function) : string * N :=
  let names := FunctionSymTab Fn in
  if String.eqb Name "" then (Name, FLastUnique Fn)
  else if bool_decide (Name ∈ names) then
    makeUniqueName (S (length names)) false
      (fun n => bool_decide (n ∈ names)) Name (FLastUnique Fn)
  else (Name, FLastUnique Fn).

(** [BasicBlock::Create] of a block named [Name] in [F] followed by
    [Builder->SetInsertPoint(BB)]: the block is appended to [F], under a
    name that is unique in [F]. *)
Definition BasicBlock_Create_SetInsertPoint (Name : string) (F : nat)
  : M unit := fun w =>
  let m := TheModule w in
  match lookupFunction F m with
  | None => Undefined
  | Some Fn =>
      let '(Name', last) := uniqueName Name Fn in
      let Fn' := mkFunction (FName Fn) (FArgs Fn)
                   (BasicBlocks Fn ++ [mkBasicBlock Name' []]) last in
      Ok tt (set_InsertPoint (Some (F, length (BasicBlocks Fn)))
               (set_TheModule
                  (mkModule (<[F := Some Fn']> (FunctionList m))
                     (ValSymTab m) (LastUnique m)) w))
  end.

Definition appendInst (I : Value) (b : nat) (last : N) (Fn : Function)
  : Function :=
  mkFunction (FName Fn) (FArgs Fn)
    (alter (fun BB => mkBasicBlock (BBName BB) (InstList BB ++ [I])) b
       (BasicBlocks Fn))
    last.

(** [IRBuilder::Insert]: the instruction goes at the end of the block at the
    insertion point and gets its name, made unique in the function (it goes
    nowhere, and keeps the name as requested, when the builder has no
    insertion point).  The result is the instruction as named. *)
Definition Insert (I : Value) : M Value := fun w =>
  match InsertPoint w with
  | None => Ok I w
  | Some (F, b) =>
      let m := TheModule w in
      match lookupFunction F m with
      | None => Undefined
      | Some Fn =>
          if bool_decide (b < length (BasicBlocks Fn))%nat then
            let '(Name, last) := uniqueName (getValueName I) Fn in
            let I' := setValueName Name I in
            Ok I' (set_TheModule
                     (mkModule
                        (<[F := Some (appendInst I' b last Fn)]> (FunctionList m))
                        (ValSymTab m) (LastUnique m)) w)
          else Undefined
      end
  end.

(** The builder is an [IRBuilder<>]: its folder is the [ConstantFolder],
    which evaluates an operation whose operands are all constants instead
    of building an instruction for it. *)
Definition evalBinOp (opc : Opcode) (a b : Z) : Z :=
  match opc with
  | OpAdd => a + b
  | OpSub => a - b
  | OpMul => a * b
  end%Z.

Definition FoldBinOp (opc : Opcode) (L R : Value) : option Value :=
  match L, R with
  | ConstantInt numBits a, ConstantInt _ b =>
      Some (ConstantInt numBits (evalBinOp opc a b mod 2 ^ Z.of_N numBits)%Z)
  | _, _ => None
  end.

Definition FoldCmp (pred : Predicate) (L R : Value) : option Value :=
  match L, R with
  | ConstantInt numBits a, ConstantInt _ b =>
      let m := (2 ^ Z.of_N numBits)%Z in
      Some (ConstantInt 1 (if (a mod m <? b mod m)%Z then 1 else 0))
  | _, _ => None
  end.

(** Zero extension of a constant. *)
Definition FoldCast (V : Value) (DestTy : IntegerType) : option Value :=
  match V, DestTy with
  | ConstantInt numBits a, IntegerTy bits =>
      Some (ConstantInt bits (a mod 2 ^ Z.of_N numBits)%Z)
  | _, _ => None
  end.

Definition sameType (V : Value) (Ty : IntegerType) : bool :=
  match getType V, Ty with
  | Some (IntegerTy n), IntegerTy n' => (n =? n')%N
  | None, _ => false
  end.

Definition CreateBinOp (opc : Opcode) (L R : Value) (Name : string)
  : M Value :=
  match FoldBinOp opc L R with
  | Some V => ret V
  | None => Insert (BinaryOperator opc L R Name)
  end.

Definition CreateAdd (L R : Value) (Name : string) : M Value :=
  CreateBinOp OpAdd L R Name.
Definition CreateSub (L R : Value) (Name : string) : M Value :=
  CreateBinOp OpSub L R Name.
Definition CreateMul (L R : Value) (Name : string) : M Value :=
  CreateBinOp OpMul L R Name.
Definition CreateICmpULT (L R : Value) (Name : string) : M Value :=
  match FoldCmp ICMP_ULT L R with
  | Some V => ret V
  | None => Insert (ICmpInst ICMP_ULT L R Name)
  end.
(** [CreateZExt] returns a value that already has the type asked for. *)
Definition CreateZExt (V : Value) (DestTy : IntegerType) (Name : string)
  : M Value :=
  if sameType V DestTy then ret V
  else
    match FoldCast V DestTy with
    | Some C => ret C
    | None => Insert (ZExtInst V DestTy Name)
    end.
Definition CreateCall (Callee : nat) (Args : list Value) (Name : string)
  : M Value :=
  Insert (CallInst Callee Args Name).
Definition CreateRet (V : Value) : M Value :=
  Insert (ReturnInst V).

(** ** Code generation *)

Definition LogErrorV (Str : string) : M (option Value) := LogError Str.

(** [llvm::ConstantInt::get] of [llvm::APInt(32, Val, true)] *)
Definition NumberExprAST_codegen (Val : double) : M (option Value) :=
  match double_to_uint64 Val with
  | Some n => ret (Some (ConstantInt 32 (n mod 2 ^ 32)%Z))
  | None => undefined
  end.

(** [NamedValues[Name]] is [std::map::operator[]]: a missing name is
    inserted with a null pointer. *)
Definition NamedValues_index (Name : string) : M (option Value) := fun w =>
  match NamedValues w !! Name with
  | Some V => Ok V w
  | None => Ok None (set_NamedValues (<[Name := None]> (NamedValues w)) w)
  end.

Definition VariableExprAST_codegen (Name : string) : M (option Value) :=
  do V <- NamedValues_index Name;
  match V with
  | None => LogErrorV "Unknown variable name"
  | Some V => ret (Some V)
  end.

Definition BinaryExprAST_dispatch (Op : ascii) (L R : Value)
  : M (option Value) :=
  if Ascii.eqb Op "+" then
    do V <- CreateAdd L R "addtmp"; ret (Some V)
  else if Ascii.eqb Op "-" then
    do V <- CreateSub L R "subtmp"; ret (Some V)
  else if Ascii.eqb Op "*" then
    do V <- CreateMul L R "multmp"; ret (Some V)
  else if Ascii.eqb Op "<" then
    do L <- CreateICmpULT L R "cmptmp";
    do V <- CreateZExt L Int32Ty "booltmp"; ret (Some V)
  else LogErrorV "invalid binary operator".

(** The loop of [CallExprAST::codegen] over the arguments. *)
Definition args_codegen (codegen : ExprAST -> M (option Value))
  : list ExprAST -> list Value -> M (option (list Value)) :=
  fix loop (l : list ExprAST) (ArgsV : list Value) :=
    match l with
    | [] => ret (Some ArgsV)
    | a :: l =>
        do V <- codegen a;
        match V with
        | None => ret None
        | Some V => loop l (ArgsV ++ [V])
        end
    end.

Fixpoint ExprAST_codegen (e : ExprAST) : M (option Value) :=
  match e with
  | NumberExprAST Val => NumberExprAST_codegen Val
  | VariableExprAST Name => VariableExprAST_codegen Name
  | BinaryExprAST Op LHS RHS =>
      do L <- ExprAST_codegen LHS;
      do R <- ExprAST_codegen RHS;
      match L, R with
      | Some L, Some R => BinaryExprAST_dispatch Op L R
      | _, _ => ret None
      end
  | CallExprAST Callee Args =>
      do CalleeF <- gets (fun w => getFunction Callee (TheModule w));
      match CalleeF with
      | None => LogErrorV "Unknown function referenced"
      | Some CalleeF =>
          do Fn <- gets (fun w => lookupFunction CalleeF (TheModule w));
          match Fn with
          | None => undefined
          | Some Fn =>
              if negb (length (FArgs Fn) =? length Args)%nat
              then LogErrorV "Incorrect # arguments passed"
              else
                do ArgsV <- args_codegen ExprAST_codegen Args [];
                match ArgsV with
                | None => ret None
                | Some ArgsV =>
                    do V <- CreateCall CalleeF ArgsV "calltmp"; ret (Some V)
                end
          end
      end
  end.

Definition PrototypeAST_codegen (P : PrototypeAST) : M (option nat) :=
  fun w =>
    let '(F, m) :=
      Function_Create (getName P) (setArgNames (ProtoArgs P) [] 0)
        (setArgNames_last (ProtoArgs P) [] 0) (TheModule w) in
    Ok (Some F) (set_TheModule m w).

(** [NamedValues.clear(); for (auto &Arg : TheFunction->args())
      NamedValues[std::string(Arg.getName())] = &Arg;] *)
Definition bindArguments (F : nat) (Fn : Function)
  : gmap string (option Value) :=
  foldl (fun NV '(i, a) => <[a := Some (Argument F i)]> NV) ∅
    (imap (fun i a => (i, a)) (FArgs Fn)).

(** [FunctionAST::codegen] up to the point where the body is generated:
    the declaration is retrieved or created, a fresh entry block is opened
    and the symbol table is reset to the declaration's arguments. *)
Definition FunctionAST_prologue (Fn : FunctionAST) : M (option nat) :=
  do TheFunction <- gets (fun w => getFunction (getName (Proto Fn)) (TheModule w));
  do TheFunction <-
    match TheFunction with
    | None => PrototypeAST_codegen (Proto Fn)
    | Some F => ret (Some F)
    end;
  match TheFunction with
  | None => ret None
  | Some F =>
      BasicBlock_Create_SetInsertPoint "entry" F;;
      do decl <- gets (fun w => lookupFunction F (TheModule w));
      match decl with
      | None => undefined
      | Some decl =>
          modify (set_NamedValues (bindArguments F decl));;
          ret (Some F)
      end
  end.

Definition FunctionAST_codegen (Fn : FunctionAST) : M (option nat) :=
  do TheFunction <- FunctionAST_prologue Fn;
  match TheFunction with
  | None => ret None
  | Some F =>
      do RetVal <- ExprAST_codegen (Body Fn);
      match RetVal with
      | Some RetVal =>
          CreateRet RetVal;;
          (* llvm::verifyFunction: its result is ignored and it is given
             no stream to report on *)
          ret (Some F)
      | None => eraseFromParent F;; ret None
      end
  end.

(** ** Top-level handlers and the main loop *)

(** [FnIR->print(llvm::errs())] *)
Definition printFunction (F : nat) : M unit :=
  do Fn <- gets (fun w => lookupFunction F (TheModule w));
  match Fn with
  | Some Fn => eprint (PrintedIR Fn)
  | None => undefined
  end.

Definition HandleDefinition (fuel : nat) : M unit :=
  do FnAST <- ParseDefinition fuel;
  match FnAST with
  | Some FnAST =>
      do FnIR <- FunctionAST_codegen FnAST;
      match FnIR with
      | Some FnIR =>
          eprint (Text "Read function definition:");;
          printFunction FnIR;;
          eprint (Text nl)
      | None => ret tt
      end
  | None => getNextToken;; ret tt
  end.

Definition HandleExtern (fuel : nat) : M unit :=
  do ProtoAST <- ParseExtern fuel;
  match ProtoAST with
  | Some ProtoAST =>
      do FnIR <- PrototypeAST_codegen ProtoAST;
      match FnIR with
      | Some FnIR =>
          eprint (Text "Read extern: ");;
          printFunction FnIR;;
          eprint (Text nl)
      | None => ret tt
      end
  | None => getNextToken;; ret tt
  end.

Definition HandleTopLevelExpression (fuel : nat) : M unit :=
  do FnAST <- ParseTopLevelExpr fuel;
  match FnAST with
  | Some FnAST =>
      do FnIR <- FunctionAST_codegen FnAST;
      match FnIR with
      | Some FnIR =>
          eprint (Text "Read top-level expression:");;
          printFunction FnIR;;
          eprint (Text nl);;
          eraseFromParent FnIR
      | None => ret tt
      end
  | None => getNextToken;; ret tt
  end.

Fixpoint MainLoop (fuel : nat) : M unit :=
  match fuel with
  | O => out_of_fuel
  | S fuel =>
      eprint (Text "ready> ");;
      do tok <- gets CurTok;
      if (tok =? tok_eof)%Z then ret tt
      else if (tok =? 59)%Z then getNextToken;; MainLoop fuel
      else if (tok =? tok_def)%Z then HandleDefinition fuel;; MainLoop fuel
      else if (tok =? tok_extern)%Z then HandleExtern fuel;; MainLoop fuel
      else HandleTopLevelExpression fuel;; MainLoop fuel
  end.

(** The four assignments at the start of [main]. *)
Definition installBinopPrecedence : M unit :=
  modify (fun w =>
    set_BinopPrecedence
      (<["*"%char := 40%Z]> (<["-"%char := 20%Z]> (<["+"%char := 20%Z]>
         (<["<"%char := 10%Z]> (BinopPrecedence w))))) w).

Definition InitializeModuleAndPassManager : M unit :=
  modify (set_TheModule emptyModule).

(** [main], up to the return of [MainLoop] (the object file emitter that
    follows does not change the module's functions). *)
Definition main (fuel : nat) : M unit :=
  installBinopPrecedence;;
  eprint (Text "ready> ");;
  getNextToken;;
  InitializeModuleAndPassManager;;
  MainLoop fuel.

(** The value and the final world of a defined outcome. *)
Definition result {A} (o : Outcome A) : option A :=
  match o with Ok a _ => Some a | _ => None end.
Definition final {A} (o : Outcome A) : World :=
  match o with Ok _ w => w | _ => initialWorld "" end.

(** * Specification vocabulary *)

(** ** Induction over expressions (the arguments of a call are nested) *)

Section ExprAST_induction.
Variable P : ExprAST -> Prop.
Hypothesis HNumber : forall Val, P (NumberExprAST Val).
Hypothesis HVariable : forall Name, P (VariableExprAST Name).
Hypothesis HBinary :
  forall Op LHS RHS, P LHS -> P RHS -> P (BinaryExprAST Op LHS RHS).
Hypothesis HCall :
  forall Callee Args, Forall P Args -> P (CallExprAST Callee Args).

Fixpoint ExprAST_ind (e : ExprAST) : P e :=
  match e with
  | NumberExprAST Val => HNumber Val
  | VariableExprAST Name => HVariable Name
  | BinaryExprAST Op LHS RHS =>
      HBinary Op LHS RHS (ExprAST_ind LHS) (ExprAST_ind RHS)
  | CallExprAST Callee Args =>
      HCall Callee Args
        ((fix all (l : list ExprAST) : Forall P l :=
            match l with
            | [] => List.Forall_nil P
            | a :: l => List.Forall_cons P a l (ExprAST_ind a) (all l)
            end) Args)
  end.
End ExprAST_induction.

(** ** Lexer *)

Fixpoint string_forall (P : Z -> bool) (s : string) : bool :=
  match s with
  | String a s' => P (int_of_char a) && string_forall P s'
  | EmptyString => true
  end.

Definition starts_with (P : Z -> bool) (s : string) : bool :=
  match s with
  | String a _ => P (int_of_char a)
  | EmptyString => false
  end.

(** ** Parser *)

Definition is_binop (Op : ascii) : Prop :=
  Op = "<"%char \/ Op = "+"%char \/ Op = "-"%char \/ Op = "*"%char.

(** Every operator of every [BinaryExprAST] node of [e] satisfies [okop]. *)
Fixpoint binops (okop : ascii -> Prop) (e : ExprAST) : Prop :=
  match e with
  | NumberExprAST _ | VariableExprAST _ => True
  | BinaryExprAST Op LHS RHS => okop Op /\ binops okop LHS /\ binops okop RHS
  | CallExprAST _ Args => fold_right (fun a P => binops okop a /\ P) True Args
  end.

(** The table [main] installs, as a function (0: not an operator). *)
Definition main_precedence (c : ascii) : Z :=
  if decide (c = "<"%char) then 10
  else if decide (c = "+"%char) then 20
  else if decide (c = "-"%char) then 20
  else if decide (c = "*"%char) then 40
  else 0.

(** [BinopPrecedence] holds [main]'s four entries and, besides them, only
    the zero entries that looking up other characters has inserted. *)
Definition table_ok (w : World) : Prop :=
  forall c, default 0%Z (BinopPrecedence w !! c) = main_precedence c.

(** The part of the world the parser never writes. *)
Definition codegen_state (w : World)
  : Module * option (nat * nat) * gmap string (option Value) :=
  (TheModule w, InsertPoint w, NamedValues w).

(** A parsing step keeps the table well-formed, leaves the code generator's
    state alone and establishes [Q] whenever it returns. *)
Definition parser_ok {A} (Q : A -> World -> Prop) (m : M A) : Prop :=
  forall w a w', table_ok w -> m w = Ok a w' ->
    table_ok w' /\ codegen_state w' = codegen_state w /\ Q a w'.

Definition parsed_ok (r : option ExprAST) : Prop :=
  forall e, r = Some e -> binops is_binop e.

Definition parsed_args_ok (r : option (list ExprAST)) : Prop :=
  forall l, r = Some l -> Forall (binops is_binop) l.

Abbreviation parses_ok m := (parser_ok (fun r _ => parsed_ok r) m).
Abbreviation parses_args_ok m := (parser_ok (fun r _ => parsed_args_ok r) m).

(** [ParseExpression] on a source text, entered the way [main] reaches it:
    table installed, first token read. *)
Definition parse_expression (fuel : nat) (src : string)
  : option (option ExprAST) :=
  result ((installBinopPrecedence;; getNextToken;; ParseExpression fuel)
            (initialWorld src)).

Definition Num (literal : string) : ExprAST := NumberExprAST (strtod literal).

(** *** Chains of operators

    A chain is an operand followed by operator/operand pairs, all operands
    being numeric literals: [a0 op1 a1 op2 a2 ...]. *)

Definition is_literal (a : string) : Prop :=
  a <> "" /\ string_forall is_num_char a = true.

Definition chain : Type := list (ascii * string).

Definition chain_ok (rest : chain) : Prop :=
  Forall (fun '(o, a) => is_binop o /\ is_literal a) rest.

Fixpoint render (rest : chain) : string :=
  match rest with
  | [] => ""
  | (o, a) :: rest => String o (a +:+ render rest)
  end.

Definition chain_source (a0 : string) (rest : chain) : string :=
  a0 +:+ render rest.

(** The tokens of an expression in source order, operands being whatever is
    not a binary node. *)
Fixpoint in_order (e : ExprAST) : list (ascii + ExprAST) :=
  match e with
  | BinaryExprAST o l r => in_order l ++ inl o :: in_order r
  | _ => [inr e]
  end.

Definition chain_tokens (a0 : string) (rest : chain)
  : list (ascii + ExprAST) :=
  inr (Num a0) :: flat_map (fun '(o, a) => [inl o; inr (Num a)]) rest.

Definition root_at_least (p : Z) (e : ExprAST) : Prop :=
  match e with
  | BinaryExprAST o _ _ => (p <= main_precedence o)%Z
  | _ => True
  end.

(** A higher precedence binds deeper and equal precedences group to the
    left: below a node, the operator at the root of the right operand is of
    strictly higher precedence, and the one at the root of the left operand
    of at least the same precedence. *)
Fixpoint precedence_ordered (e : ExprAST) : Prop :=
  match e with
  | BinaryExprAST o l r =>
      precedence_ordered l /\ precedence_ordered r /\
      root_at_least (main_precedence o) l /\
      root_at_least (main_precedence o + 1) r
  | _ => True
  end.

(** The tree of a chain, built operator by operator: a further operator
    goes below the operators of strictly lower precedence on the right
    spine, and above everything else there. *)
Fixpoint attach (t : ExprAST) (op : ascii) (a : ExprAST) : ExprAST :=
  match t with
  | BinaryExprAST o l r =>
      if (main_precedence o <? main_precedence op)%Z
      then BinaryExprAST o l (attach r op a)
      else BinaryExprAST op t a
  | _ => BinaryExprAST op t a
  end.

Definition tree_of (t : ExprAST) (rest : chain) : ExprAST :=
  foldl (fun t '(o, a) => attach t o (Num a)) t rest.

(** The operators of a chain that one activation of [ParseBinOpRHS] with
    minimal precedence [p] consumes, and those it leaves. *)
Fixpoint take_ge (p : Z) (rest : chain) : chain :=
  match rest with
  | (o, a) :: rest' =>
      if (p <=? main_precedence o)%Z then (o, a) :: take_ge p rest' else []
  | [] => []
  end.

Fixpoint drop_ge (p : Z) (rest : chain) : chain :=
  match rest with
  | (o, a) :: rest' =>
      if (p <=? main_precedence o)%Z then drop_ge p rest' else rest
  | [] => []
  end.

Definition head_prec (rest : chain) : Z :=
  match rest with
  | (o, _) :: _ => main_precedence o
  | [] => (-1)%Z
  end.

Definition root_ok (t : ExprAST) (rest : chain) : Prop :=
  match t, rest with
  | BinaryExprAST r _ _, (o, _) :: _ =>
      (main_precedence o <= main_precedence r)%Z
  | _, _ => True
  end.

(** The table after the four assignments of [main]. *)
Definition main_table : gmap ascii Z :=
  <["*"%char := 40%Z]> (<["-"%char := 20%Z]> (<["+"%char := 20%Z]>
     (<["<"%char := 10%Z]> ∅))).

(** The lexer has [s] left to read (look-ahead character included). *)
Definition lexer_at (w : World) (s : string) : Prop :=
  (nextChar w, stdin w) = getchar s.

(** The parser stands at the first operator of [rest]: that operator is the
    current token, and the lexer has its operand and what follows left. *)
Definition chain_at (w : World) (rest : chain) : Prop :=
  BinopPrecedence w = main_table /\
  match rest with
  | [] => CurTok w = tok_eof /\ lexer_at w ""
  | (o, a) :: rest' =>
      CurTok w = int_of_char o /\ lexer_at w (a +:+ render rest')
  end.

(** ** Code generation *)

(** A step of the program respects [R] when every defined result is related
    to the world it started from. *)
Definition respects {A} (R : World -> World -> Prop) (m : M A) : Prop :=
  forall w a w', m w = Ok a w' -> R w w'.

Definition signature (Fn : Function) : string * list string * nat :=
  (FName Fn, FArgs Fn, length (BasicBlocks Fn)).

(** What expression code generation may change: it appends instructions to
    the function at the insertion point, appends diagnostics to [stderr] and
    records null entries for unknown names; everything else stays. *)
Record cg_frame (w w' : World) : Prop := mk_cg_frame {
  fr_lexer :
    stdin w' = stdin w /\ nextChar w' = nextChar w /\
    identifierStr w' = identifierStr w /\ numVal w' = numVal w /\
    CurTok w' = CurTok w /\ BinopPrecedence w' = BinopPrecedence w;
  fr_InsertPoint : InsertPoint w' = InsertPoint w;
  fr_ValSymTab : ValSymTab (TheModule w') = ValSymTab (TheModule w);
  fr_LastUnique : LastUnique (TheModule w') = LastUnique (TheModule w);
  fr_length :
    length (FunctionList (TheModule w')) = length (FunctionList (TheModule w));
  fr_signature : forall F,
    signature <$> lookupFunction F (TheModule w') =
    signature <$> lookupFunction F (TheModule w);
  fr_others : forall F,
    (forall b, InsertPoint w <> Some (F, b)) ->
    FunctionList (TheModule w') !! F = FunctionList (TheModule w) !! F;
  fr_stderr : stderr w `prefix_of` stderr w';
  fr_NamedValues : forall k,
    NamedValues w' !! k = NamedValues w !! k \/
    (NamedValues w !! k = None /\ NamedValues w' !! k = Some None)
}.

Definition invalid_binop_diagnostic : Output :=
  Text ("Error: invalid binary operator" +:+ nl).

(** No "invalid binary operator" diagnostic is written between [w] and [w']. *)
Definition no_invalid_binop (w w' : World) : Prop :=
  invalid_binop_diagnostic ∈ stderr w' -> invalid_binop_diagnostic ∈ stderr w.

(** The instructions of block [b] of function [F]. *)
Definition blockInsts (F b : nat) (w : World) : option (list Value) :=
  match lookupFunction F (TheModule w) with
  | Some Fn => InstList <$> BasicBlocks Fn !! b
  | None => None
  end.

(** The name that a value asking for [base] gets in a symbol table whose
    names are [taken] and whose counter stands at [last], and the counter
    afterwards: [base] itself when it is free; otherwise [base] followed by
    the first number above the counter that gives a free name, which is
    where the counter then stands. *)
Definition unique_name (taken : string -> Prop) (last : N)
    (base name : string) (last' : N) : Prop :=
  (~ taken base /\ name = base /\ last' = last) \/
  (taken base /\ (last < last')%N /\ name = base +:+ pretty last' /\
   ~ taken name /\
   forall j, (last < j < last')%N -> taken (base +:+ pretty j)).

(** The arithmetic operators: the instruction and the name asked for. *)
Definition arith_opcode (Op : ascii) : option (Opcode * string) :=
  if decide (Op = "+"%char) then Some (OpAdd, "addtmp")
  else if decide (Op = "-"%char) then Some (OpSub, "subtmp")
  else if decide (Op = "*"%char) then Some (OpMul, "multmp")
  else None.

Definition is_constant (V : Value) : Prop :=
  exists numBits val, V = ConstantInt numBits val.

(** What a binary operation [Op] on the values [L] and [R] gives, in a
    function whose symbol table has the names [taken] and the counter
    [last]: its value, the instructions it appends and what it writes to
    [stderr].  Two constants are folded into a constant and nothing is
    appended; otherwise [+], [-] and [*] append one instruction, and [<]
    appends a comparison and its extension to 32 bits. *)
Inductive binop_spec (taken : string -> Prop) (last : N) (L R : Value)
  : ascii -> option Value -> list Value -> list Output -> Prop :=
| binop_arith_folded Op opc base numBits a numBits' b :
    arith_opcode Op = Some (opc, base) ->
    L = ConstantInt numBits a -> R = ConstantInt numBits' b ->
    binop_spec taken last L R Op
      (Some (ConstantInt numBits
               (evalBinOp opc a b mod 2 ^ Z.of_N numBits)%Z)) [] []
| binop_arith Op opc base name last' :
    arith_opcode Op = Some (opc, base) ->
    ~ (is_constant L /\ is_constant R) ->
    unique_name taken last base name last' ->
    binop_spec taken last L R Op
      (Some (BinaryOperator opc L R name)) [BinaryOperator opc L R name] []
| binop_less_folded numBits a numBits' b :
    L = ConstantInt numBits a -> R = ConstantInt numBits' b ->
    binop_spec taken last L R "<"
      (Some (ConstantInt 32
               (if (a mod 2 ^ Z.of_N numBits <? b mod 2 ^ Z.of_N numBits)%Z
                then 1 else 0))) [] []
| binop_less name1 last1 name2 last2 :
    ~ (is_constant L /\ is_constant R) ->
    unique_name taken last "cmptmp" name1 last1 ->
    unique_name (fun n => n = name1 \/ taken n) last1 "booltmp" name2 last2 ->
    binop_spec taken last L R "<"
      (Some (ZExtInst (ICmpInst ICMP_ULT L R name1) Int32Ty name2))
      [ICmpInst ICMP_ULT L R name1;
       ZExtInst (ICmpInst ICMP_ULT L R name1) Int32Ty name2] []
| binop_invalid Op :
    ~ is_binop Op ->
    binop_spec taken last L R Op None [] [invalid_binop_diagnostic].

(** ** The module *)

(** The symbol table and the function list agree: a name is bound to a live
    function carrying that name, and every live, named function is bound
    under its name.  Hence a name identifies at most one function. *)
Definition wfModule (m : Module) : Prop :=
  (forall n F, ValSymTab m !! n = Some F ->
     n <> "" /\ exists Fn, lookupFunction F m = Some Fn /\ FName Fn = n) /\
  (forall F Fn, lookupFunction F m = Some Fn -> FName Fn <> "" ->
     ValSymTab m !! FName Fn = Some F).

(** The [k]-th name [makeUniqueName] tries. *)
Definition candidate (dot : bool) (base : string) (k : N) : string :=
  base +:+ (if dot then "." else "") +:+ pretty k.

(** Two modules with the same symbol table whose functions carry the same
    names. *)
Definition same_names (m m' : Module) : Prop :=
  ValSymTab m' = ValSymTab m /\
  forall F, FName <$> lookupFunction F m' = FName <$> lookupFunction F m.

Definition entryBlock : BasicBlock := mkBasicBlock "entry" [].

(** ** The programs of the examples *)

(** [extern foo(a b)] and [def foo(a b) a+b], as parsed. *)
Definition extern_foo : PrototypeAST := mkPrototypeAST "foo" ["a"; "b"].
Definition def_foo : FunctionAST :=
  mkFunctionAST (mkPrototypeAST "foo" ["a"; "b"])
    (BinaryExprAST "+" (VariableExprAST "a") (VariableExprAST "b")).

Definition foo_declared : Function := mkFunction "foo" ["a"; "b"] [] 0.
Definition foo_defined (F : nat) : Function :=
  let sum := BinaryOperator OpAdd (Argument F 0) (Argument F 1) "addtmp" in
  mkFunction "foo" ["a"; "b"] [mkBasicBlock "entry" [sum; ReturnInst sum]] 0.

(** The module after [extern foo(a b)] alone. *)
Definition after_extern_foo : World :=
  set_TheModule (mkModule [Some foo_declared] {["foo" := 0]} 0)
    (initialWorld "").

(** The module after [def f(x) x] alone. *)
Definition f_defined : Function :=
  mkFunction "f" ["x"] [mkBasicBlock "entry" [ReturnInst (Argument 0 0)]] 0.
Definition after_def_f : World :=
  set_TheModule (mkModule [Some f_defined] {["f" := 0]} 0) (initialWorld "").

Definition one : ExprAST := Num "1".
Definition two : ExprAST := Num "2".


(** A world in which code can be generated: function [g(x y)] with an open,
    empty entry block. *)
Definition inside_g : World :=
  set_NamedValues
    (<["y" := Some (Argument 0 1)]> (<["x" := Some (Argument 0 0)]> ∅))
    (set_InsertPoint (Some (0, 0))
       (set_TheModule
          (mkModule [Some (mkFunction "g" ["x"; "y"] [entryBlock] 0)]
             {["g" := 0]} 0)
          (initialWorld ""))).

(** [def bad(x) y]: the body refers to an unknown name. *)
Definition def_bad : FunctionAST :=
  mkFunctionAST (mkPrototypeAST "bad" ["x"]) (VariableExprAST "y").

(** ** Two sentences of the specification that the code does not satisfy *)

(** "Prototype code generation retrieves the signature when the name is
    already declared and creates no duplicate." *)
Definition prototype_codegen_reuses (P : PrototypeAST) (w : World) : Prop :=
  forall F, getFunction (getName P) (TheModule w) = Some F ->
    exists w', PrototypeAST_codegen P w = Ok (Some F) w' /\
      FunctionList (TheModule w') = FunctionList (TheModule w).

(** "A call with the wrong number of arguments fails with the error
    'incorrect number of arguments'." *)
Definition arity_error_as_worded (Callee : string) (Args : list ExprAST)
    (w : World) : Prop :=
  forall F Fn,
    getFunction Callee (TheModule w) = Some F ->
    lookupFunction F (TheModule w) = Some Fn ->
    length (FArgs Fn) <> length Args ->
    exists w', ExprAST_codegen (CallExprAST Callee Args) w = Ok None w' /\
      stderr w' =
        stderr w ++ [Text ("Error: incorrect number of arguments" +:+ nl)].

(** "The operators [+], [-] and [*] map to the corresponding arithmetic
    instruction": the value of such a node is that instruction. *)
Definition binop_emits_instruction (Op : ascii) (LHS RHS : ExprAST)
    (w : World) : Prop :=
  forall opc base res w',
    arith_opcode Op = Some (opc, base) ->
    ExprAST_codegen (BinaryExprAST Op LHS RHS) w = Ok (Some res) w' ->
    exists L R Name, res = BinaryOperator opc L R Name.

(** "In every run in which [extern foo(a b)] is processed and then
    [def foo(a b) a+b], the definition finds the declaration, attaches the
    body to it and succeeds without error." *)
Definition extern_then_def_succeeds (w : World) : Prop :=
  forall F w1,
    PrototypeAST_codegen extern_foo w = Ok (Some F) w1 ->
    exists F' w2,
      FunctionAST_codegen def_foo w1 = Ok (Some F') w2 /\
      stderr w2 = stderr w1.

(** ** The main loop *)

(** What holds whenever the main loop is about to handle a top-level form:
    the precedence table is [main]'s, and the module's symbol table is
    consistent with its functions. *)
Definition driver_inv (w : World) : Prop :=
  table_ok w /\ wfModule (TheModule w).

Abbreviation keeps_inv m :=
  (respects (fun w w' : World => driver_inv w -> driver_inv w') m).

(** ** Fuel *)

(** [m'] returns whatever [m] returns. *)
Definition refines {A} (m m' : M A) : Prop :=
  forall w a w', m w = Ok a w' -> m' w = Ok a w'.

(** The first [n] tokens the lexer returns from a world. *)
Fixpoint tokens (n : nat) (w : World) : list Z :=
  match n with
  | O => []
  | S n =>
      match getok w with
      | Ok t w' => t :: tokens n w'
      | _ => []
      end
  end.


(** * Proofs *)

(** ** The monad *)

Lemma bind_ret {A B} (a : A) (k : A -> M B) w : bind (ret a) k w = k a w.
Proof. reflexivity. Qed.

Lemma bind_gets {A B} (f : World -> A) (k : A -> M B) w :
  bind (gets f) k w = k (f w) w.
Proof. reflexivity. Qed.

Lemma bind_modify {B} (f : World -> World) (k : unit -> M B) w :
  bind (modify f) k w = k tt (f w).
Proof. reflexivity. Qed.

Lemma bind_assoc {A B C} (m : M A) (k : A -> M B) (h : B -> M C) w :
  bind (bind m k) h w = bind m (fun a => bind (k a) h) w.
Proof. unfold bind. by destruct (m w). Qed.

Lemma bind_Ok {A B} (m : M A) (k : A -> M B) w a w' :
  m w = Ok a w' -> bind m k w = k a w'.
Proof. unfold bind. by intros ->. Qed.

Ltac mstep :=
  cbv beta iota;
  repeat (first [rewrite bind_assoc | rewrite bind_ret | rewrite bind_gets
                | rewrite bind_modify]; cbv beta iota).

Ltac wsimpl :=
  cbn [stdin nextChar identifierStr numVal CurTok BinopPrecedence TheModule
       InsertPoint NamedValues stderr set_lexer set_identifierStr set_numVal
       set_CurTok set_BinopPrecedence set_TheModule set_InsertPoint
       set_NamedValues set_stderr FunctionList ValSymTab LastUnique
       FName FArgs BasicBlocks BBName InstList] in *.

(** ** Strings and characters *)

Lemma append_nil (s : string) : "" +:+ s = s.
Proof. reflexivity. Qed.

Lemma append_cons a (s t : string) : String a s +:+ t = String a (s +:+ t).
Proof. reflexivity. Qed.

Lemma append_assoc (a b c : string) : (a +:+ b) +:+ c = a +:+ (b +:+ c).
Proof.
  induction a as [|x a IH]; [reflexivity|].
  rewrite !append_cons, IH. reflexivity.
Qed.

Lemma append_nonempty (s t : string) : s <> "" -> s +:+ t <> "".
Proof. destruct s; [congruence|]. rewrite append_cons. discriminate. Qed.

Lemma int_of_char_range a : (0 <= int_of_char a < 256)%Z.
Proof.
  unfold int_of_char. pose proof (N_ascii_bounded a). lia.
Qed.

Lemma char_of_int_of_char a : char_of_int (int_of_char a) = a.
Proof.
  unfold char_of_int. rewrite Z.mod_small by apply int_of_char_range.
  unfold int_of_char. rewrite N2Z.id. apply ascii_N_embedding.
Qed.

(** ** The model at work *)

Example strtod_tenth :
  strtod "0.1" = S754_finite false 7205759403792794 (-56).
Proof. vm_compute. reflexivity. Qed.

Example strtod_ties_to_even :
  strtod "9007199254740993" = S754_finite false 4503599627370496 1.
Proof. vm_compute. reflexivity. Qed.

Example strtod_without_digits : strtod ".." = S754_zero false.
Proof. vm_compute. reflexivity. Qed.

Example strtod_overflow :
  strtod "1" = S754_finite false 4503599627370496 (-52) /\
  double_to_uint64 (strtod "18446744073709551616") = None /\
  double_to_uint64 (strtod "18446744073709549568") = Some 18446744073709549568%Z.
Proof. vm_compute. auto. Qed.

(** The tokens of [def f(x) x<1.5;]. *)
Example lexer_tokens :
  tokens 11 (initialWorld "def f(x) x<1.5;") =
    [tok_def; tok_indentifier; 40; tok_indentifier; 41; tok_indentifier; 60;
     tok_number; 59; tok_eof; tok_eof]%Z.
Proof. vm_compute. reflexivity. Qed.

(** [def average(x y) (x + y) * 5], the program of the interoperability
    example. *)
Example average_compiles :
  let sum := BinaryOperator OpAdd (Argument 0 0) (Argument 0 1) "addtmp" in
  let prod := BinaryOperator OpMul sum (ConstantInt 32 5) "multmp" in
  FunctionList
    (TheModule (final (main 20 (initialWorld "def average(x y) (x + y) * 5"))))
  = [Some (mkFunction "average" ["x"; "y"]
             [mkBasicBlock "entry" [sum; prod; ReturnInst prod]] 0)].
Proof. vm_compute. reflexivity. Qed.

(** The builder folds operations on constants: [1+2*3] is the constant 7
    and [1<2] the constant 1, and no instruction is emitted for them. *)
Example constants_fold :
  FunctionList (TheModule (final (main 20 (initialWorld "def f(x) 1+2*3"))))
  = [Some (mkFunction "f" ["x"]
             [mkBasicBlock "entry" [ReturnInst (ConstantInt 32 7)]] 0)] /\
  FunctionList (TheModule (final (main 20 (initialWorld "def f(x) 1<2"))))
  = [Some (mkFunction "f" ["x"]
             [mkBasicBlock "entry" [ReturnInst (ConstantInt 32 1)]] 0)].
Proof. split; vm_compute; reflexivity. Qed.

(** Names are unique within a function: in [x+x+x] the second add is
    [addtmp1], and a second definition of [f] adds a block [entry1]. *)
Example names_unique :
  let x := Argument 0 0 in
  let sum := BinaryOperator OpAdd x x "addtmp" in
  let total := BinaryOperator OpAdd sum x "addtmp1" in
  FunctionList (TheModule (final (main 20 (initialWorld "def f(x) x+x+x"))))
  = [Some (mkFunction "f" ["x"]
             [mkBasicBlock "entry" [sum; total; ReturnInst total]] 1)] /\
  FunctionList
    (TheModule (final (main 20 (initialWorld "def f(x) x; def f(x) x"))))
  = [Some (mkFunction "f" ["x"]
             [mkBasicBlock "entry" [ReturnInst x];
              mkBasicBlock "entry1" [ReturnInst x]] 1)].
Proof. split; vm_compute; reflexivity. Qed.

(** [inside_g] is where code generation of a definition [def g(x y) ...]
    stands, in a fresh module, when it starts on the body. *)
Example inside_g_reached :
  FunctionAST_prologue
    (mkFunctionAST (mkPrototypeAST "g" ["x"; "y"]) (VariableExprAST "x"))
    (initialWorld "") = Ok (Some 0) inside_g.
Proof. vm_compute. reflexivity. Qed.

(** ** The lexer on a numeric literal *)

Lemma skip_whitespace_eq c s :
  skip_whitespace c s =
    if isspace c then
      match s with
      | String a s' => skip_whitespace (int_of_char a) s'
      | EmptyString => (EOF, EmptyString)
      end
    else (c, s).
Proof. destruct s; reflexivity. Qed.

Lemma read_number_eq numStr c s :
  read_number numStr c s =
    let numStr' := numStr +:+ String (char_of_int c) "" in
    match s with
    | String a s' =>
        if is_num_char (int_of_char a)
        then read_number numStr' (int_of_char a) s'
        else (numStr', int_of_char a, s')
    | EmptyString => (numStr', EOF, EmptyString)
    end.
Proof. destruct s; reflexivity. Qed.

Lemma is_num_char_not_space c : is_num_char c = true -> isspace c = false.
Proof.
  unfold is_num_char, isdigit, isspace. intros H.
  destruct (Z.eqb_spec c 46); [subst; reflexivity|].
  rewrite orb_false_r in H. apply andb_true_iff in H as [H1 H2].
  apply Z.leb_le in H1, H2.
  apply orb_false_iff; split; [apply Z.eqb_neq; lia|].
  apply andb_false_iff; right. apply Z.leb_gt. lia.
Qed.

Lemma is_num_char_not_alpha c : is_num_char c = true -> isalpha c = false.
Proof.
  unfold is_num_char, isdigit, isalpha. intros H.
  destruct (Z.eqb_spec c 46); [subst; reflexivity|].
  rewrite orb_false_r in H. apply andb_true_iff in H as [H1 H2].
  apply Z.leb_le in H1, H2.
  apply orb_false_iff; split; apply andb_false_iff; left; apply Z.leb_gt; lia.
Qed.

Lemma skip_whitespace_run ws : forall a s b t,
  String a s = ws +:+ String b t ->
  string_forall isspace ws = true ->
  isspace (int_of_char b) = false ->
  skip_whitespace (int_of_char a) s = (int_of_char b, t).
Proof.
  induction ws as [|x ws IH]; intros a s b t Heq Hws Hb.
  - rewrite append_nil in Heq. injection Heq as -> ->.
    rewrite skip_whitespace_eq, Hb. reflexivity.
  - rewrite append_cons in Heq. injection Heq as -> ->.
    simpl in Hws. apply andb_true_iff in Hws as [Hx Hws].
    rewrite skip_whitespace_eq, Hx.
    destruct ws as [|y ws].
    + rewrite append_nil. apply (IH b t b t); auto.
    + rewrite append_cons. apply (IH y _ b t); auto.
Qed.

Lemma read_number_run run : forall numStr b rest,
  string_forall is_num_char run = true ->
  starts_with is_num_char rest = false ->
  read_number numStr (int_of_char b) (run +:+ rest) =
    (numStr +:+ String b run, (getchar rest).1, (getchar rest).2).
Proof.
  induction run as [|x run IH]; intros numStr b rest Hrun Hrest.
  - rewrite append_nil, read_number_eq, char_of_int_of_char. cbv zeta.
    destruct rest as [|y rest]; simpl in *; [reflexivity|].
    rewrite Hrest. reflexivity.
  - simpl in Hrun. apply andb_true_iff in Hrun as [Hx Hrun].
    rewrite append_cons, read_number_eq. cbv zeta.
    rewrite Hx, char_of_int_of_char, IH by assumption.
    rewrite append_assoc. reflexivity.
Qed.

(** C7: when the pending input (the look-ahead character followed by the
    rest of the stream) is whitespace [ws], then a non-empty maximal run
    [run] of digits and dots, then [rest], [getok] returns one [tok_number]
    whose value is [strtod run], and leaves the lexer at [rest]; the run is
    not validated in any way. *)
Theorem getok_number (w : World) (a : ascii) (ws run rest : string) :
  nextChar w = int_of_char a ->
  String a (stdin w) = ws +:+ run +:+ rest ->
  string_forall isspace ws = true ->
  run <> EmptyString ->
  string_forall is_num_char run = true ->
  starts_with is_num_char rest = false ->
  getok w =
    Ok tok_number
      (set_numVal (strtod run)
         (set_lexer (getchar rest).2 (getchar rest).1 w)).
Proof.
  intros Hc Hin Hws Hne Hrun Hrest.
  destruct run as [|b run]; [congruence|]. simpl in Hrun.
  rewrite append_cons in Hin.
  apply andb_true_iff in Hrun as [Hb Hrun].
  unfold getok. rewrite Hc.
  rewrite (skip_whitespace_run ws a (stdin w) b (run +:+ rest));
    auto using is_num_char_not_space.
  rewrite is_num_char_not_alpha, Hb by assumption.
  rewrite read_number_run by assumption. reflexivity.
Qed.

(** The input [1.2.3]: one number token, valued as its prefix [1.2], and
    then the end of the input. *)
Lemma getok_number_witness :
  let w := initialWorld "1.2.3" in
  (nextChar w = int_of_char " " /\
   String " " (stdin w) = " " +:+ "1.2.3" +:+ "" /\
   string_forall isspace " " = true /\
   "1.2.3" <> EmptyString /\
   string_forall is_num_char "1.2.3" = true /\
   starts_with is_num_char "" = false) /\
  getok w =
    Ok tok_number (set_numVal (strtod "1.2.3") (set_lexer "" EOF w)) /\
  strtod "1.2.3" = strtod "1.2" /\
  result (getok (set_numVal (strtod "1.2.3") (set_lexer "" EOF w))) =
    Some tok_eof.
Proof.
  intros w.
  assert (nextChar w = int_of_char " " /\
          String " " (stdin w) = " " +:+ "1.2.3" +:+ "" /\
          string_forall isspace " " = true /\
          "1.2.3" <> EmptyString /\
          string_forall is_num_char "1.2.3" = true /\
          starts_with is_num_char "" = false) as H.
  { repeat split; try reflexivity. discriminate. }
  split; [exact H|].
  destruct H as (H1 & H2 & H3 & H4 & H5 & H6).
  split; [exact (getok_number w " " " " "1.2.3" "" H1 H2 H3 H4 H5 H6)|].
  split; vm_compute; reflexivity.
Defined.

(** ** Number literals *)

(** C8: a number literal whose value [m * 2^e] has integer part [n] (below
    [2^64]) generates the 32-bit constant [n mod 2^32]: the fractional part
    is dropped when the constant is built. *)
Theorem NumberExprAST_codegen_truncates (m : positive) (e n : Z) (w : World) :
  (0 <= n < 2 ^ 64)%Z ->
  (n * 2 ^ Z.max 0 (- e) <= Z.pos m * 2 ^ Z.max 0 e
     < (n + 1) * 2 ^ Z.max 0 (- e))%Z ->
  ExprAST_codegen (NumberExprAST (S754_finite false m e)) w =
    Ok (Some (ConstantInt 32 (n mod 2 ^ 32)%Z)) w.
Proof.
  intros Hn Hm. simpl. unfold NumberExprAST_codegen, double_to_uint64.
  assert (Z.shiftl (Z.pos m) e = n) as ->.
  { destruct (Z.le_gt_cases 0 e) as [He|He].
    - rewrite Z.shiftl_mul_pow2 by exact He.
      rewrite (Z.max_l 0 (- e)), (Z.max_r 0 e) in Hm by lia.
      rewrite Z.pow_0_r, !Z.mul_1_r in Hm. lia.
    - rewrite Z.shiftl_div_pow2 by lia.
      rewrite (Z.max_r 0 (- e)), (Z.max_l 0 e) in Hm by lia.
      rewrite Z.pow_0_r, Z.mul_1_r in Hm.
      symmetry. apply Z.div_unique with (r := (Z.pos m - n * 2 ^ (- e))%Z).
      + left. lia.
      + lia. }
  rewrite (proj2 (Z.ltb_lt _ _)) by lia. reflexivity.
Qed.

(** The literal [2.9] is lexed to the double nearest to 2.9 and generates
    the constant 2; typed at the prompt, it is compiled to a function that
    returns that constant. *)
Lemma NumberExprAST_codegen_truncates_witness :
  strtod "2.9" = S754_finite false 6530219459687219 (-51) /\
  PrintedIR
    (mkFunction "__anon_expr" []
       [mkBasicBlock "entry" [ReturnInst (ConstantInt 32 2)]] 0)
    ∈ stderr (final (main 10 (initialWorld "2.9"))) /\
  ((0 <= 2 < 2 ^ 64)%Z /\
   (2 * 2 ^ Z.max 0 (- -51) <= 6530219459687219 * 2 ^ Z.max 0 (-51)
      < (2 + 1) * 2 ^ Z.max 0 (- -51))%Z) /\
  ExprAST_codegen (NumberExprAST (strtod "2.9")) (initialWorld "") =
    Ok (Some (ConstantInt 32 2)) (initialWorld "").
Proof.
  assert ((0 <= 2 < 2 ^ 64)%Z) as H1 by (split; [discriminate|reflexivity]).
  assert ((2 * 2 ^ Z.max 0 (- -51) <= 6530219459687219 * 2 ^ Z.max 0 (-51)
      < (2 + 1) * 2 ^ Z.max 0 (- -51))%Z) as H2
    by (vm_compute; split; [discriminate|reflexivity]).
  split; [vm_compute; reflexivity|].
  split; [vm_compute; apply list_elem_of_In; simpl; tauto|].
  split; [exact (conj H1 H2)|].
  exact (NumberExprAST_codegen_truncates 6530219459687219 (-51) 2
           (initialWorld "") H1 H2).
Defined.

(** ** What code generation preserves *)

Lemma binops_Call okop Callee Args :
  binops okop (CallExprAST Callee Args) <-> Forall (binops okop) Args.
Proof.
  simpl. induction Args as [|a l IH]; simpl.
  - split; auto.
  - rewrite Forall_cons. tauto.
Qed.

Lemma binops_True e : binops (fun _ => True) e.
Proof.
  induction e as [Val|Name|Op LHS RHS IHL IHR|Callee Args IH]
    using ExprAST_ind; simpl; auto.
  by apply (binops_Call (fun _ => True) Callee).
Qed.

Section Respects.
Context (R : World -> World -> Prop) `{!PreOrder R}.

Lemma respects_ret {A} (a : A) : respects R (ret a).
Proof. intros w a' w' [= _ <-]. reflexivity. Qed.

Lemma respects_gets {A} (f : World -> A) : respects R (gets f).
Proof. intros w a' w' [= _ <-]. reflexivity. Qed.

Lemma respects_undefined {A} : respects R (@undefined A).
Proof. intros w a w' [=]. Qed.

Lemma respects_bind {A B} (m : M A) (k : A -> M B) :
  respects R m -> (forall a, respects R (k a)) -> respects R (bind m k).
Proof.
  intros Hm Hk w b w'. unfold bind.
  destruct (m w) as [a w1| |] eqn:E; [|discriminate..].
  intros H. transitivity w1; [eapply Hm | eapply Hk]; eauto.
Qed.

Context (okop : ascii -> Prop).
Hypothesis R_Insert : forall I, respects R (Insert I).
Hypothesis R_index : forall Name, respects R (NamedValues_index Name).
Hypothesis R_unknown_variable :
  respects R (LogErrorV "Unknown variable name").
Hypothesis R_unknown_function :
  respects R (LogErrorV "Unknown function referenced").
Hypothesis R_arity : respects R (LogErrorV "Incorrect # arguments passed").
Hypothesis R_dispatch :
  forall Op L R', okop Op -> respects R (BinaryExprAST_dispatch Op L R').

Lemma respects_args_codegen cg Args :
  Forall (fun e => respects R (cg e)) Args ->
  forall ArgsV, respects R (args_codegen cg Args ArgsV).
Proof.
  induction 1 as [|a l Ha _ IH]; intros ArgsV; simpl.
  - apply respects_ret.
  - apply respects_bind; [exact Ha|].
    intros [V|]; [apply IH | apply respects_ret].
Qed.

Lemma respects_ExprAST_codegen e :
  binops okop e -> respects R (ExprAST_codegen e).
Proof.
  induction e as [Val|Name|Op LHS RHS IHL IHR|Callee Args IH]
    using ExprAST_ind; intros Hops; simpl.
  - unfold NumberExprAST_codegen. case_match;
      [apply respects_ret | apply respects_undefined].
  - unfold VariableExprAST_codegen. apply respects_bind; [apply R_index|].
    intros [V|]; [apply respects_ret | apply R_unknown_variable].
  - destruct Hops as (Hop & HL & HR).
    apply respects_bind; [by apply IHL|]. intros L.
    apply respects_bind; [by apply IHR|]. intros R'.
    destruct L, R'; try apply respects_ret. by apply R_dispatch.
  - apply binops_Call in Hops.
    apply respects_bind; [apply respects_gets|]. intros [F|];
      [|apply R_unknown_function].
    apply respects_bind; [apply respects_gets|]. intros [Fn|];
      [|apply respects_undefined].
    case_match; [apply R_arity|].
    apply respects_bind.
    { apply respects_args_codegen.
      eapply Forall_impl; [apply Forall_and; split; [exact IH|exact Hops]|].
      intros e [H1 H2]. by apply H1. }
    intros [ArgsV|]; [|apply respects_ret].
    apply respects_bind; [apply R_Insert | intros; apply respects_ret].
Qed.
End Respects.

#[local] Instance cg_frame_preorder : PreOrder cg_frame.
Proof.
  split.
  - intros w. split; intros; try done; auto.
  - intros w1 w2 w3 [L1 I1 S1 U1 N1 G1 O1 E1 V1] [L2 I2 S2 U2 N2 G2 O2 E2 V2].
    split; [intuition congruence|congruence..| | | |].
    + intros F. rewrite G2. apply G1.
    + intros F HF. rewrite O2 by (rewrite I1; exact HF). apply O1, HF.
    + etransitivity; eassumption.
    + intros k. destruct (V1 k) as [H1|[H1 H1']], (V2 k) as [H2|[H2 H2']];
        try (left; congruence); right; split; congruence.
Qed.

Lemma lookupFunction_insert_eq F Fn l V U :
  F < length l ->
  lookupFunction F (mkModule (<[F := Some Fn]> l) V U) = Some Fn.
Proof.
  intros H. unfold lookupFunction. simpl.
  rewrite list_lookup_insert_eq by exact H. reflexivity.
Qed.

Lemma lookupFunction_insert_ne F G x l V U :
  F <> G ->
  lookupFunction G (mkModule (<[F := x]> l) V U) =
  lookupFunction G (mkModule l V U).
Proof.
  intros H. unfold lookupFunction. simpl.
  rewrite list_lookup_insert_ne by exact H. reflexivity.
Qed.

Lemma lookupFunction_Some_lt F m Fn :
  lookupFunction F m = Some Fn -> F < length (FunctionList m).
Proof.
  unfold lookupFunction. intros H.
  destruct (FunctionList m !! F) as [o|] eqn:E; [|discriminate].
  eapply lookup_lt_Some, E.
Qed.

Lemma module_eta m :
  mkModule (FunctionList m) (ValSymTab m) (LastUnique m) = m.
Proof. destruct m; reflexivity. Qed.

Lemma insert_last {A} (l : list A) (x y : A) :
  <[length l := y]> (l ++ [x]) = l ++ [y].
Proof.
  rewrite insert_app_r_alt by lia. by rewrite Nat.sub_diag.
Qed.

Lemma lookup_last {A} (l : list A) (x : A) : (l ++ [x]) !! length l = Some x.
Proof. by rewrite list_lookup_middle. Qed.

Lemma lookupFunction_last l fn V U :
  lookupFunction (length l) (mkModule (l ++ [Some fn]) V U) = Some fn.
Proof. unfold lookupFunction. simpl. by rewrite lookup_last. Qed.

Lemma lookupFunction_snoc G l x V U V' U' :
  lookupFunction G (mkModule (l ++ [x]) V U) =
    if decide (G = length l) then x else lookupFunction G (mkModule l V' U').
Proof.
  unfold lookupFunction. simpl. case_decide as H.
  - subst. rewrite list_lookup_middle by done. reflexivity.
  - destruct (decide (G < length l)) as [Hlt|Hge].
    + rewrite lookup_app_l by exact Hlt. reflexivity.
    + rewrite !(lookup_ge_None_2) by (rewrite ?length_app; simpl; lia).
      reflexivity.
Qed.

Lemma Insert_Ok_inv I w a w' :
  Insert I w = Ok a w' ->
  match InsertPoint w with
  | None => a = I /\ w' = w
  | Some (F, b) =>
      exists Fn, lookupFunction F (TheModule w) = Some Fn /\
        b < length (BasicBlocks Fn) /\
        a = setValueName (uniqueName (getValueName I) Fn).1 I /\
        w' = set_TheModule
               (mkModule
                  (<[F := Some (appendInst a b
                                  (uniqueName (getValueName I) Fn).2 Fn)]>
                     (FunctionList (TheModule w)))
                  (ValSymTab (TheModule w)) (LastUnique (TheModule w))) w
  end.
Proof.
  unfold Insert. destruct (InsertPoint w) as [[F b]|]; [|by intros [= <- <-]].
  destruct (lookupFunction F (TheModule w)) as [Fn|]; [|discriminate].
  case_bool_decide as Hb; [|discriminate].
  destruct (uniqueName (getValueName I) Fn) as [Name last] eqn:EU.
  intros [= <- <-]. exists Fn. rewrite EU. auto.
Qed.

Lemma Insert_frame I : respects cg_frame (Insert I).
Proof.
  intros w a w' H. apply Insert_Ok_inv in H.
  destruct (InsertPoint w) as [[F b]|] eqn:EIP;
    [|destruct H as [_ ->]; reflexivity].
  destruct H as (Fn & EF & Hb & _ & ->).
  pose proof (lookupFunction_Some_lt _ _ _ EF) as Hlt.
  split; simpl; try done; auto.
  - apply length_insert.
  - intros G. destruct (decide (F = G)) as [<-|Hne].
    + rewrite lookupFunction_insert_eq by exact Hlt. rewrite EF. simpl.
      unfold signature, appendInst. simpl. rewrite length_alter. reflexivity.
    + rewrite lookupFunction_insert_ne by exact Hne.
      rewrite module_eta. reflexivity.
  - intros G HG. rewrite list_lookup_insert_ne; [reflexivity|].
    intros ->. apply (HG b). exact EIP.
Qed.

Lemma eprint_frame o : respects cg_frame (eprint o).
Proof.
  intros w a w' [= _ <-]. split; simpl; try done; auto.
  by apply prefix_app_r.
Qed.

Lemma LogErrorV_frame Str : respects cg_frame (LogErrorV Str).
Proof.
  apply respects_bind; [apply _|apply eprint_frame|].
  intros; apply respects_ret, _.
Qed.

Lemma NamedValues_index_frame Name :
  respects cg_frame (NamedValues_index Name).
Proof.
  intros w a w'. unfold NamedValues_index.
  destruct (NamedValues w !! Name) as [V|] eqn:E; intros [= _ <-];
    [reflexivity|].
  split; simpl; try done; auto. intros k.
  destruct (decide (Name = k)) as [<-|Hne].
  - right. rewrite lookup_insert_eq. auto.
  - left. apply lookup_insert_ne, Hne.
Qed.

Lemma dispatch_frame Op L R :
  respects cg_frame (BinaryExprAST_dispatch Op L R).
Proof.
  unfold BinaryExprAST_dispatch, CreateAdd, CreateSub, CreateMul,
    CreateBinOp, CreateICmpULT, CreateZExt.
  repeat case_match;
    repeat first [ apply respects_ret, _ | apply Insert_frame
                 | apply LogErrorV_frame
                 | (apply respects_bind; [apply _| |intros ?])
                 | case_match ].
Qed.

Lemma ExprAST_codegen_frame e : respects cg_frame (ExprAST_codegen e).
Proof.
  apply (respects_ExprAST_codegen cg_frame (fun _ => True));
    auto using Insert_frame, LogErrorV_frame, NamedValues_index_frame,
      dispatch_frame, binops_True.
Qed.

(** ** The builder *)

Lemma candidate_inj dot base : Inj (=) (=) (candidate dot base).
Proof.
  intros j k H. unfold candidate in H.
  apply (inj (String.app base)) in H.
  apply (inj (String.app _)) in H.
  by apply (inj pretty) in H.
Qed.

(** [makeUniqueName] returns the first free candidate above the counter,
    and leaves the counter at its number. *)
Lemma makeUniqueName_least rounds dot taken base :
  forall last (S : gset string),
    (forall k, (last < k)%N -> taken (candidate dot base k) = true ->
       candidate dot base k ∈ S) ->
    size S < rounds ->
    forall n last', makeUniqueName rounds dot taken base last = (n, last') ->
    taken n = false /\ n = candidate dot base last' /\ (last < last')%N /\
    forall j, (last < j < last')%N -> taken (candidate dot base j) = true.
Proof.
  induction rounds as [|rounds IH]; intros last S HS Hsize n last' E; [lia|].
  simpl in E. fold (candidate dot base (last + 1)) in E.
  destruct (taken (candidate dot base (last + 1))) eqn:Et.
  - destruct (IH (last + 1)%N (S ∖ {[candidate dot base (last + 1)]}))
      with (n := n) (last' := last') as (H1 & H2 & H3 & H4); [| |done|].
    + intros k Hk Ht. apply elem_of_difference. split; [apply HS; [lia|done]|].
      rewrite elem_of_singleton. intros Heq%candidate_inj. lia.
    + assert (candidate dot base (last + 1) ∈ S) as Hin
        by (apply HS; [lia|done]).
      pose proof (size_difference S {[candidate dot base (last + 1)]}) as Hd.
      rewrite size_singleton in Hd.
      assert (size S > 0).
      { destruct (decide (size S = 0)) as [Hz|]; [|lia].
        apply size_empty_inv in Hz. set_solver. }
      rewrite Hd by (by apply singleton_subseteq_l). lia.
    + split_and!; [done|done|lia|]. intros j Hj.
      destruct (decide (j = (last + 1)%N)) as [->|Hne]; [done|].
      apply H4. lia.
  - injection E as <- <-. split_and!; [done|done|lia|]. intros j Hj. lia.
Qed.

Lemma size_list_to_set_le (l : list string) :
  size (list_to_set l : gset string) <= length l.
Proof.
  induction l as [|a l IH].
  - change (size (∅ : gset string) <= 0). by rewrite size_empty.
  - change (size ({[a]} ∪ list_to_set l : gset string) <= S (length l)).
    rewrite size_union_alt, size_singleton.
    assert (list_to_set l ∖ {[a]} ⊆ (list_to_set l : gset string)) as Hsub
      by (apply subseteq_difference_l; reflexivity).
    apply subseteq_size in Hsub. lia.
Qed.

Lemma uniqueName_spec base Fn name last' :
  base <> "" ->
  uniqueName base Fn = (name, last') ->
  unique_name (fun n => n ∈ FunctionSymTab Fn) (FLastUnique Fn) base name last'.
Proof.
  intros Hne. unfold uniqueName.
  destruct (String.eqb_spec base "") as [|_]; [done|].
  case_bool_decide as Hin.
  - intros E. right.
    destruct (makeUniqueName_least (S (length (FunctionSymTab Fn))) false
                (fun n => bool_decide (n ∈ FunctionSymTab Fn)) base
                (FLastUnique Fn) (list_to_set (FunctionSymTab Fn)))
      with (n := name) (last' := last')
      as (H1 & H2 & H3 & H4); [| |exact E|].
    + intros k _ Hk. apply bool_decide_eq_true in Hk.
      by apply elem_of_list_to_set.
    + pose proof (size_list_to_set_le (FunctionSymTab Fn)). lia.
    + apply bool_decide_eq_false in H1. unfold candidate in H2. simpl in H2.
      split_and!; try done.
      intros j Hj. specialize (H4 j Hj). by apply bool_decide_eq_true in H4.
  - intros [= <- <-]. by left.
Qed.

Lemma unique_name_ext (taken taken' : string -> Prop) last base name last' :
  (forall n, taken n <-> taken' n) ->
  unique_name taken last base name last' ->
  unique_name taken' last base name last'.
Proof.
  intros H [(H1 & H2 & H3)|(H1 & H2 & H3 & H4 & H5)]; [left|right].
  - rewrite <- H. done.
  - rewrite <- !H. split_and!; try done. intros j Hj. apply H. by apply H5.
Qed.

Lemma FunctionSymTab_appendInst I b last Fn n :
  b < length (BasicBlocks Fn) ->
  n ∈ FunctionSymTab (appendInst I b last Fn) <->
  n = getValueName I \/ n ∈ FunctionSymTab Fn.
Proof.
  intros Hb. unfold FunctionSymTab, appendInst. simpl.
  rewrite !elem_of_app.
  assert (BBName <$>
            alter (fun BB => mkBasicBlock (BBName BB) (InstList BB ++ [I])) b
              (BasicBlocks Fn) = BBName <$> BasicBlocks Fn) as ->.
  { apply list_eq. intros i. rewrite !list_lookup_fmap.
    destruct (decide (b = i)) as [->|Hne].
    - rewrite list_lookup_alter_eq. by destruct (BasicBlocks Fn !! i).
    - by rewrite list_lookup_alter_ne. }
  rewrite !list_elem_of_bind.
  split.
  - intros [H|[H|(BB & Hn & HBB)]]; [tauto|tauto|].
    apply list_elem_of_lookup in HBB as [i Hi].
    destruct (decide (b = i)) as [->|Hne].
    + rewrite list_lookup_alter_eq in Hi.
      destruct (BasicBlocks Fn !! i) as [BB0|] eqn:E0; [|done].
      injection Hi as <-. simpl in Hn. rewrite fmap_app, elem_of_app in Hn.
      destruct Hn as [Hn|Hn].
      * right. right. right. exists BB0. split; [done|].
        by eapply list_elem_of_lookup_2.
      * left. by apply list_elem_of_singleton in Hn.
    + rewrite list_lookup_alter_ne in Hi by done.
      right. right. right. exists BB. split; [done|].
      by eapply list_elem_of_lookup_2.
  - intros [->|[H|[H|(BB & Hn & HBB)]]]; [|tauto|tauto|].
    + right. right.
      destruct (lookup_lt_is_Some_2 _ _ Hb) as [BB0 E0].
      exists (mkBasicBlock (BBName BB0) (InstList BB0 ++ [I])). split.
      * simpl. rewrite fmap_app, elem_of_app. right. simpl.
        by apply list_elem_of_singleton.
      * apply list_elem_of_lookup. exists b.
        by rewrite list_lookup_alter_eq, E0.
    + right. right.
      apply list_elem_of_lookup in HBB as [i Hi].
      destruct (decide (b = i)) as [->|Hne].
      * exists (mkBasicBlock (BBName BB) (InstList BB ++ [I])). split.
        -- simpl. rewrite fmap_app, elem_of_app. by left.
        -- apply list_elem_of_lookup. exists i.
           by rewrite list_lookup_alter_eq, Hi.
      * exists BB. split; [done|]. apply list_elem_of_lookup. exists i.
        by rewrite list_lookup_alter_ne.
Qed.

(** [Insert] at a valid insertion point: the instruction is appended under
    the name that is unique in the function, and is what is returned. *)
Lemma Insert_spec I w F b Fn insts :
  InsertPoint w = Some (F, b) ->
  lookupFunction F (TheModule w) = Some Fn ->
  blockInsts F b w = Some insts ->
  exists name last' w',
    uniqueName (getValueName I) Fn = (name, last') /\
    Insert I w = Ok (setValueName name I) w' /\
    lookupFunction F (TheModule w') =
      Some (appendInst (setValueName name I) b last' Fn) /\
    b < length (BasicBlocks Fn) /\
    blockInsts F b w' = Some (insts ++ [setValueName name I]) /\
    InsertPoint w' = Some (F, b) /\
    stderr w' = stderr w /\ NamedValues w' = NamedValues w.
Proof.
  intros HIP EF Hb. unfold Insert, blockInsts in *. rewrite HIP, EF in *.
  destruct (BasicBlocks Fn !! b) as [BB|] eqn:EB; [|discriminate].
  injection Hb as <-.
  pose proof (lookup_lt_Some _ _ _ EB) as Hlt.
  rewrite bool_decide_true by exact Hlt.
  destruct (uniqueName (getValueName I) Fn) as [name last'].
  eexists name, last', _. split; [reflexivity|]. split; [reflexivity|]. simpl.
  rewrite lookupFunction_insert_eq by (eapply lookupFunction_Some_lt, EF).
  simpl. rewrite list_lookup_alter_eq, EB. auto 10.
Qed.

Lemma Insert_stderr I w a w' : Insert I w = Ok a w' -> stderr w' = stderr w.
Proof.
  intros H. apply Insert_Ok_inv in H.
  destruct (InsertPoint w) as [[F b]|]; [|by destruct H as [_ ->]].
  by destruct H as (Fn & _ & _ & _ & ->).
Qed.

Lemma FoldBinOp_cases opc L R :
  (exists numBits a numBits' b,
     L = ConstantInt numBits a /\ R = ConstantInt numBits' b /\
     FoldBinOp opc L R =
       Some (ConstantInt numBits (evalBinOp opc a b mod 2 ^ Z.of_N numBits)%Z)) \/
  (~ (is_constant L /\ is_constant R) /\ FoldBinOp opc L R = None).
Proof.
  destruct L; [destruct R|..]; simpl;
    first [ left; by eauto 10
          | right; split; [|reflexivity];
            intros [(? & ? & ?) (? & ? & ?)]; discriminate ].
Qed.

Lemma FoldCmp_cases L R :
  (exists numBits a numBits' b,
     L = ConstantInt numBits a /\ R = ConstantInt numBits' b /\
     FoldCmp ICMP_ULT L R =
       Some (ConstantInt 1
               (if (a mod 2 ^ Z.of_N numBits <? b mod 2 ^ Z.of_N numBits)%Z
                then 1 else 0))) \/
  (~ (is_constant L /\ is_constant R) /\ FoldCmp ICMP_ULT L R = None).
Proof.
  destruct L; [destruct R|..]; simpl;
    first [ left; by eauto 10
          | right; split; [|reflexivity];
            intros [(? & ? & ?) (? & ? & ?)]; discriminate ].
Qed.

Lemma arith_opcode_is_binop Op opc base :
  arith_opcode Op = Some (opc, base) -> is_binop Op /\ base <> "".
Proof.
  unfold arith_opcode, is_binop. repeat case_decide; intros [= <- <-]; auto.
Qed.

Lemma CreateBinOp_spec Op opc base L R w F b Fn insts :
  arith_opcode Op = Some (opc, base) ->
  InsertPoint w = Some (F, b) ->
  lookupFunction F (TheModule w) = Some Fn ->
  blockInsts F b w = Some insts ->
  exists res w' new,
    CreateBinOp opc L R base w = Ok res w' /\
    binop_spec (fun n => n ∈ FunctionSymTab Fn) (FLastUnique Fn) L R Op
      (Some res) new [] /\
    blockInsts F b w' = Some (insts ++ new) /\ stderr w' = stderr w.
Proof.
  intros Hop HIP EF Hb. unfold CreateBinOp.
  destruct (FoldBinOp_cases opc L R)
    as [(n & a & n' & b' & -> & -> & ->)|[Hnc ->]].
  - eexists _, w, []. split; [reflexivity|]. rewrite app_nil_r.
    split; [|done]. by eapply binop_arith_folded.
  - destruct (Insert_spec (BinaryOperator opc L R base) w F b Fn insts HIP EF Hb)
      as (name & last' & w' & EU & E & _ & _ & B & _ & S & _).
    simpl in *. eexists _, w', _. split; [exact E|]. split; [|done].
    eapply binop_arith; [done..|].
    apply uniqueName_spec; [|done]. by eapply arith_opcode_is_binop.
Qed.

Lemma dispatch_spec Op L R w F b Fn insts :
  InsertPoint w = Some (F, b) ->
  lookupFunction F (TheModule w) = Some Fn ->
  blockInsts F b w = Some insts ->
  exists res w' new err,
    BinaryExprAST_dispatch Op L R w = Ok res w' /\
    binop_spec (fun n => n ∈ FunctionSymTab Fn) (FLastUnique Fn) L R Op
      res new err /\
    blockInsts F b w' = Some (insts ++ new) /\
    stderr w' = stderr w ++ err.
Proof.
  intros HIP EF Hb. unfold BinaryExprAST_dispatch.
  unfold CreateAdd, CreateSub, CreateMul.
  assert (forall opc base, arith_opcode Op = Some (opc, base) ->
    exists res w' new err,
      (do V <- CreateBinOp opc L R base; ret (Some V)) w = Ok res w' /\
      binop_spec (fun n => n ∈ FunctionSymTab Fn) (FLastUnique Fn) L R Op
        res new err /\
      blockInsts F b w' = Some (insts ++ new) /\
      stderr w' = stderr w ++ err) as Harith.
  { intros opc base Hop.
    destruct (CreateBinOp_spec Op opc base L R w F b Fn insts Hop HIP EF Hb)
      as (res & w' & new & E & HS & HB & HE).
    exists (Some res), w', new, []. unfold bind, ret. rewrite E.
    rewrite app_nil_r. auto. }
  destruct (Ascii.eqb_spec Op "+") as [->|N1]; [by apply Harith|].
  destruct (Ascii.eqb_spec Op "-") as [->|N2]; [by apply Harith|].
  destruct (Ascii.eqb_spec Op "*") as [->|N3]; [by apply Harith|].
  destruct (Ascii.eqb_spec Op "<") as [->|N4].
  - unfold CreateICmpULT.
    destruct (FoldCmp_cases L R)
      as [(n & a & n' & b' & -> & -> & ->)|[Hnc ->]].
    + eexists _, w, [], []. unfold bind, ret. simpl.
      split; [reflexivity|]. rewrite !app_nil_r. split; [|done].
      assert (forall c : bool,
                ((if c then 1 else 0) mod 2 ^ 1 = if c then 1 else 0)%Z)
        as Hmod by (by intros []).
      rewrite Hmod. by eapply binop_less_folded.
    + destruct (Insert_spec (ICmpInst ICMP_ULT L R "cmptmp") w F b Fn insts
                  HIP EF Hb)
        as (name1 & last1 & w1 & EU1 & E1 & EF1 & Hlt & B1 & I1 & S1 & _).
      destruct (Insert_spec
                  (ZExtInst (setValueName name1 (ICmpInst ICMP_ULT L R "cmptmp"))
                     Int32Ty "booltmp") w1 F b _ _ I1 EF1 B1)
        as (name2 & last2 & w' & EU2 & E2 & _ & _ & B2 & _ & S2 & _).
      simpl in EU1, E1, EF1, B1, EU2, E2, B2.
      exists (Some (ZExtInst (ICmpInst ICMP_ULT L R name1) Int32Ty name2)), w',
        [ICmpInst ICMP_ULT L R name1;
         ZExtInst (ICmpInst ICMP_ULT L R name1) Int32Ty name2], [].
      unfold bind, ret. rewrite E1.
      unfold CreateZExt. simpl. rewrite E2.
      split; [reflexivity|]. rewrite app_nil_r.
      split; [|split; [by rewrite B2, <- ?app_assoc|congruence]].
      eapply binop_less; [done| |].
      * by apply uniqueName_spec.
      * apply uniqueName_spec in EU2; [|done].
        eapply unique_name_ext; [|exact EU2].
        intros k. simpl. by rewrite FunctionSymTab_appendInst.
  - eexists None, _, [], _. split; [reflexivity|]. rewrite app_nil_r.
    split; [|done]. apply binop_invalid.
    unfold is_binop. intros [ -> | [ -> | [ -> | -> ] ] ]; done.
Qed.

(** C6 (as amended): a binary operation generates its left operand, then
    (in the world the left operand left behind) its right operand; if
    either is absent the result is absent and nothing more happens.
    Otherwise [+], [-] and [*] give the sum, difference and product, and
    [<] the unsigned less-than comparison extended to the 32-bit integer
    type: when both operands are constants, the builder evaluates the
    operation and the result is a constant, nothing being appended to the
    block; when they are not, the add, sub or mul instruction (for [<]: the
    comparison and its zero extension) is appended and returned, under the
    name asked for if it is free in the function, and made unique
    otherwise.  Any other operator appends nothing, writes "invalid binary
    operator" and returns an absent result. *)
Theorem BinaryExprAST_codegen_spec Op LHS RHS w l w1 r w2 F b Fn insts :
  ExprAST_codegen LHS w = Ok l w1 ->
  ExprAST_codegen RHS w1 = Ok r w2 ->
  InsertPoint w2 = Some (F, b) ->
  lookupFunction F (TheModule w2) = Some Fn ->
  blockInsts F b w2 = Some insts ->
  exists res w',
    ExprAST_codegen (BinaryExprAST Op LHS RHS) w = Ok res w' /\
    match l, r with
    | Some L, Some R =>
        exists new err,
          binop_spec (fun n => n ∈ FunctionSymTab Fn) (FLastUnique Fn) L R Op
            res new err /\
          blockInsts F b w' = Some (insts ++ new) /\
          stderr w' = stderr w2 ++ err
    | _, _ => res = None /\ w' = w2
    end.
Proof.
  intros HL HR HIP EF Hb. simpl. unfold bind at 1. rewrite HL.
  unfold bind at 1. rewrite HR.
  destruct l as [L|], r as [R|]; try (eexists _, _; split; [reflexivity|auto]).
  destruct (dispatch_spec Op L R w2 F b Fn insts HIP EF Hb)
    as (res & w' & new & err & E & H).
  exists res, w'. split; [assumption|]. eauto.
Qed.

(** [(x + y) + (1 + 2)] inside [g]: the right operand is folded to the
    constant 3 and emits nothing; the sum of the two is an instruction, and
    as the name [addtmp] is taken by the left operand it is named
    [addtmp1]. *)
Lemma BinaryExprAST_codegen_spec_witness :
  let x := VariableExprAST "x" in
  let y := VariableExprAST "y" in
  let LHS := BinaryExprAST "+" x y in
  let RHS := BinaryExprAST "+" one two in
  let w1 := final (ExprAST_codegen LHS inside_g) in
  let sum := BinaryOperator OpAdd (Argument 0 0) (Argument 0 1) "addtmp" in
  let Fn := mkFunction "g" ["x"; "y"] [mkBasicBlock "entry" [sum]] 0 in
  let total := BinaryOperator OpAdd sum (ConstantInt 32 3) "addtmp1" in
  (ExprAST_codegen LHS inside_g = Ok (Some sum) w1 /\
   ExprAST_codegen RHS w1 = Ok (Some (ConstantInt 32 3)) w1 /\
   InsertPoint w1 = Some (0, 0) /\
   lookupFunction 0 (TheModule w1) = Some Fn /\
   blockInsts 0 0 w1 = Some [sum]) /\
  exists w',
    ExprAST_codegen (BinaryExprAST "+" LHS RHS) inside_g = Ok (Some total) w' /\
    blockInsts 0 0 w' = Some [sum; total] /\
    stderr w' = stderr inside_g.
Proof.
  intros x y LHS RHS w1 sum Fn total.
  assert (ExprAST_codegen LHS inside_g = Ok (Some sum) w1) as H1
    by (vm_compute; reflexivity).
  assert (ExprAST_codegen RHS w1 = Ok (Some (ConstantInt 32 3)) w1) as H2
    by (vm_compute; reflexivity).
  assert (InsertPoint w1 = Some (0, 0)) as H3 by (vm_compute; reflexivity).
  assert (lookupFunction 0 (TheModule w1) = Some Fn) as H4
    by (vm_compute; reflexivity).
  assert (blockInsts 0 0 w1 = Some [sum]) as H5 by (vm_compute; reflexivity).
  split; [auto 6|].
  destruct (BinaryExprAST_codegen_spec "+" LHS RHS inside_g _ _ _ _ 0 0 Fn [sum]
              H1 H2 H3 H4 H5)
    as (res & w' & E & new & err & Hspec & Hb & He).
  assert (ExprAST_codegen (BinaryExprAST "+" LHS RHS) inside_g =
            Ok (Some total)
               (final (ExprAST_codegen (BinaryExprAST "+" LHS RHS) inside_g)))
    as E' by (vm_compute; reflexivity).
  rewrite E' in E. injection E as <- <-.
  eexists. split; [exact E'|]. split; vm_compute; reflexivity.
Defined.

(** With the constants 1 and 2 as operands, [+] generates no add
    instruction: the result is the constant 3 and the block stays empty. *)
Lemma binop_instruction_counterexample :
  ~ binop_emits_instruction "+" one two inside_g.
Proof.
  intros H.
  destruct (H OpAdd "addtmp" (ConstantInt 32 3) inside_g eq_refl)
    as (L & R & name & Hres); [vm_compute; reflexivity|discriminate Hres].
Qed.

(** ** Calls *)

(** C5 (as amended): a call to a name the module does not declare fails with
    the diagnostic "Unknown function referenced", and a call whose argument
    count differs from the declaration's parameter count fails with the
    diagnostic "Incorrect # arguments passed"; in both cases the only change
    to the world is that diagnostic: no argument is generated and no
    instruction is emitted. *)
Theorem CallExprAST_codegen_arity Callee Args w :
  (getFunction Callee (TheModule w) = None ->
   ExprAST_codegen (CallExprAST Callee Args) w =
     Ok None
       (set_stderr
          (stderr w ++ [Text ("Error: Unknown function referenced" +:+ nl)])
          w))
  /\
  (forall F Fn,
     getFunction Callee (TheModule w) = Some F ->
     lookupFunction F (TheModule w) = Some Fn ->
     length (FArgs Fn) <> length Args ->
     ExprAST_codegen (CallExprAST Callee Args) w =
       Ok None
         (set_stderr
            (stderr w ++ [Text ("Error: Incorrect # arguments passed" +:+ nl)])
            w)).
Proof.
  split.
  - intros H. simpl. unfold bind, gets. rewrite H. reflexivity.
  - intros F Fn HF HFn Hlen. simpl. unfold bind, gets. rewrite HF, HFn.
    rewrite (proj2 (Nat.eqb_neq _ _) Hlen). reflexivity.
Qed.

(** After [def f(x) x]: the calls [f(1,2)] and [h(1)]. *)
Lemma CallExprAST_codegen_arity_witness :
  (getFunction "h" (TheModule after_def_f) = None /\
   getFunction "f" (TheModule after_def_f) = Some 0 /\
   lookupFunction 0 (TheModule after_def_f) = Some f_defined /\
   length (FArgs f_defined) <> length [one; two]) /\
  ExprAST_codegen (CallExprAST "h" [one]) after_def_f =
    Ok None
      (set_stderr [Text ("Error: Unknown function referenced" +:+ nl)]
         after_def_f) /\
  ExprAST_codegen (CallExprAST "f" [one; two]) after_def_f =
    Ok None
      (set_stderr [Text ("Error: Incorrect # arguments passed" +:+ nl)]
         after_def_f).
Proof.
  assert (getFunction "h" (TheModule after_def_f) = None) as H1
    by (vm_compute; reflexivity).
  assert (getFunction "f" (TheModule after_def_f) = Some 0) as H2
    by (vm_compute; reflexivity).
  assert (lookupFunction 0 (TheModule after_def_f) = Some f_defined) as H3
    by reflexivity.
  assert (length (FArgs f_defined) <> length [one; two]) as H4
    by (simpl; lia).
  split; [auto|]. split.
  - exact (proj1 (CallExprAST_codegen_arity "h" [one] after_def_f) H1).
  - exact (proj2 (CallExprAST_codegen_arity "f" [one; two] after_def_f)
             0 f_defined H2 H3 H4).
Defined.

(** After [def f(x) x], the call [f(1,2)] does not fail the way the
    specification words it: the diagnostic reads differently. *)
Lemma arity_error_wording_counterexample :
  ~ arity_error_as_worded "f" [one; two] after_def_f.
Proof.
  intros H.
  destruct (H 0 f_defined) as (w' & E & Herr).
  - vm_compute; reflexivity.
  - reflexivity.
  - simpl; lia.
  - rewrite (proj2 (CallExprAST_codegen_arity "f" [one; two] after_def_f)
               0 f_defined) in E;
      [|vm_compute; reflexivity|reflexivity|simpl; lia].
    injection E as <-. vm_compute in Herr. discriminate Herr.
Qed.

(** ** The module's symbol table *)

Lemma wfModule_empty : wfModule emptyModule.
Proof.
  split.
  - intros n F H. simpl in H. rewrite lookup_empty in H. discriminate.
  - intros F Fn H. by destruct F.
Qed.

Lemma wfModule_unique m F G Fn Gn :
  wfModule m ->
  lookupFunction F m = Some Fn -> lookupFunction G m = Some Gn ->
  FName Fn = FName Gn -> FName Fn <> "" -> F = G.
Proof.
  intros [_ H2] HF HG Hn Hne.
  pose proof (H2 F Fn HF Hne) as E1.
  assert (FName Gn <> "") as Hne' by congruence.
  pose proof (H2 G Gn HG Hne') as E2. congruence.
Qed.

Lemma makeUniqueName_fresh rounds dot taken base :
  forall last (S : gset string),
    (forall k, (last < k)%N -> taken (candidate dot base k) = true ->
       candidate dot base k ∈ S) ->
    size S < rounds ->
    let '(n, last') := makeUniqueName rounds dot taken base last in
    taken n = false /\ exists k, n = candidate dot base k.
Proof.
  induction rounds as [|rounds IH]; intros last S HS Hsize; [lia|].
  simpl. fold (candidate dot base (last + 1)).
  destruct (taken (candidate dot base (last + 1))) eqn:E; [|eauto].
  apply (IH (last + 1)%N (S ∖ {[candidate dot base (last + 1)]})).
  - intros k Hk Ht. apply elem_of_difference. split; [apply HS; [lia|done]|].
    rewrite elem_of_singleton. intros Heq%candidate_inj. lia.
  - assert (candidate dot base (last + 1) ∈ S) as Hin by (apply HS; [lia|done]).
    pose proof (size_difference S {[candidate dot base (last + 1)]}) as Hd.
    rewrite size_singleton in Hd.
    assert (size S > 0).
    { destruct (decide (size S = 0)) as [Hz|]; [|lia].
      apply size_empty_inv in Hz. set_solver. }
    rewrite Hd by set_solver. lia.
Qed.

Lemma Function_Create_spec Name ArgNames Flast m :
  wfModule m ->
  exists Name' last',
    Function_Create Name ArgNames Flast m =
      (length (FunctionList m),
       mkModule (FunctionList m ++ [Some (mkFunction Name' ArgNames [] Flast)])
         (if decide (Name = "") then ValSymTab m
          else <[Name' := length (FunctionList m)]> (ValSymTab m)) last') /\
    ValSymTab m !! Name' = None /\
    (Name = "" <-> Name' = "") /\
    (ValSymTab m !! Name = None -> Name' = Name).
Proof.
  intros [W1 W2]. unfold Function_Create.
  destruct (String.eqb_spec Name "") as [->|Hne].
  { exists "", (LastUnique m). rewrite decide_True by done.
    repeat split; auto.
    destruct (ValSymTab m !! "") eqn:E; [|done]. by apply W1 in E as [? _]. }
  destruct (decide (Name = "")) as [|_]; [done|].
  destruct (ValSymTab m !! Name) as [G|] eqn:E.
  - pose proof (makeUniqueName_fresh (S (size (ValSymTab m))) true
      (fun n => bool_decide (is_Some (ValSymTab m !! n))) Name
      (LastUnique m) (dom (ValSymTab m))) as H.
    destruct (makeUniqueName _ _ _ _ _) as [n last'].
    destruct H as [Hfresh [k ->]].
    { intros k _ Hk. apply bool_decide_eq_true in Hk. by apply elem_of_dom. }
    { rewrite size_dom. lia. }
    apply bool_decide_eq_false in Hfresh.
    exists (candidate true Name k), last'. repeat split; auto.
    + by apply eq_None_not_Some.
    + intros ->. done.
    + intros H. exfalso. revert H. by apply append_nonempty.
    + done.
  - exists Name, (LastUnique m). repeat split; auto; try done.
Qed.

Lemma wfModule_Function_Create Name ArgNames Flast m :
  wfModule m -> wfModule (Function_Create Name ArgNames Flast m).2.
Proof.
  intros W. destruct (Function_Create_spec Name ArgNames Flast m W)
    as (Name' & last' & -> & Hfree & Hemp & _).
  destruct W as [W1 W2]. simpl. split.
  - intros n F H. simpl in H.
    rewrite (lookupFunction_snoc _ _ _ _ _ (ValSymTab m) (LastUnique m)), module_eta.
    assert (ValSymTab m !! n = Some F ->
            n <> "" /\ exists Fn,
              (if decide (F = length (FunctionList m))
               then Some (mkFunction Name' ArgNames [] Flast)
               else lookupFunction F m) = Some Fn /\ FName Fn = n) as Hold.
    { intros H'. destruct (W1 n F H') as (Hn & Fn & HF & HN). split; [done|].
      exists Fn. rewrite decide_False; [done|].
      apply lookupFunction_Some_lt in HF. lia. }
    destruct (decide (Name = "")) as [HN|HN]; [by apply Hold|].
    destruct (decide (Name' = n)) as [<-|Hne].
    + rewrite lookup_insert_eq in H. injection H as <-.
      split; [tauto|]. rewrite decide_True by done. eauto.
    + rewrite lookup_insert_ne in H by done. by apply Hold.
  - intros F Fn H Hne. simpl.
    rewrite (lookupFunction_snoc _ _ _ _ _ (ValSymTab m) (LastUnique m)), module_eta in H.
    case_decide as HF.
    + injection H as <-. simpl in *. subst F.
      destruct (decide (Name = "")) as [HN|HN]; [tauto|]. apply lookup_insert_eq.
    + pose proof (W2 F Fn H Hne) as E.
      destruct (decide (Name = "")) as [HN|HN]; [done|].
      rewrite lookup_insert_ne; [done|]. congruence.
Qed.

Lemma wfModule_erase F w w' :
  wfModule (TheModule w) -> eraseFromParent F w = Ok tt w' ->
  wfModule (TheModule w') /\
  lookupFunction F (TheModule w') = None /\
  (forall G, G <> F ->
     lookupFunction G (TheModule w') = lookupFunction G (TheModule w)) /\
  (forall Fn, lookupFunction F (TheModule w) = Some Fn ->
     getFunction (FName Fn) (TheModule w') = None).
Proof.
  intros [W1 W2]. unfold eraseFromParent.
  destruct (lookupFunction F (TheModule w)) as [Fn|] eqn:EF; [|discriminate].
  intros [= <-]. simpl.
  pose proof (lookupFunction_Some_lt _ _ _ EF) as Hlt.
  assert (forall G, G <> F ->
    lookupFunction G
      (mkModule (<[F:=None]> (FunctionList (TheModule w)))
         (if String.eqb (FName Fn) "" then ValSymTab (TheModule w)
          else delete (FName Fn) (ValSymTab (TheModule w)))
         (LastUnique (TheModule w))) = lookupFunction G (TheModule w)) as Hother.
  { intros G HG. rewrite lookupFunction_insert_ne by done. reflexivity. }
  assert (lookupFunction F
      (mkModule (<[F:=None]> (FunctionList (TheModule w)))
         (if String.eqb (FName Fn) "" then ValSymTab (TheModule w)
          else delete (FName Fn) (ValSymTab (TheModule w)))
         (LastUnique (TheModule w))) = None) as Hgone.
  { unfold lookupFunction. simpl. by rewrite list_lookup_insert_eq. }
  split; [split|split; [done|split; [done|]]].
  - intros n G H. simpl in H.
    assert (ValSymTab (TheModule w) !! n = Some G /\
            (FName Fn = "" \/ n <> FName Fn)) as [H' Hn].
    { destruct (String.eqb_spec (FName Fn) ""); [auto|].
      apply lookup_delete_Some in H as [? ?]. auto. }
    destruct (W1 n G H') as (Hne & Gn & HG & HN). split; [done|].
    exists Gn. split; [|done]. rewrite Hother; [done|].
    intros ->. rewrite EF in HG. injection HG as <-.
    destruct Hn; congruence.
  - intros G Gn H Hne. simpl.
    destruct (decide (G = F)) as [->|HG]; [congruence|].
    rewrite Hother in H by done.
    pose proof (W2 G Gn H Hne) as E.
    destruct (String.eqb_spec (FName Fn) ""); [done|].
    rewrite lookup_delete_ne; [done|]. intros Heq.
    assert (ValSymTab (TheModule w) !! FName Fn = Some F) by (by apply W2).
    congruence.
  - intros Fn' [= <-]. unfold getFunction. simpl.
    destruct (String.eqb_spec (FName Fn) "") as [E|E].
    + rewrite E. destruct (ValSymTab (TheModule w) !! "") eqn:E'; [|done].
      by apply W1 in E' as [? _].
    + apply lookup_delete_eq.
Qed.

Lemma wfModule_same_names m m' : same_names m m' -> wfModule m -> wfModule m'.
Proof.
  intros [HS HN] [W1 W2]. split.
  - intros n F H. rewrite HS in H. destruct (W1 n F H) as (Hne & Fn & HF & E).
    split; [done|]. specialize (HN F). rewrite HF in HN. simpl in HN.
    destruct (lookupFunction F m') as [Fn'|]; [|done].
    exists Fn'. split; [done|]. simpl in HN. congruence.
  - intros F Fn' H Hne. rewrite HS. specialize (HN F). rewrite H in HN.
    destruct (lookupFunction F m) as [Fn|] eqn:E; [|done].
    simpl in HN. injection HN as HN. rewrite HN. apply W2; congruence.
Qed.

Lemma cg_frame_same_names w w' :
  cg_frame w w' -> same_names (TheModule w) (TheModule w').
Proof.
  intros H. split; [apply H|]. intros F.
  pose proof (fr_signature _ _ H F) as E.
  destruct (lookupFunction F (TheModule w')), (lookupFunction F (TheModule w));
    unfold signature in *; simpl in *; congruence.
Qed.

Lemma BasicBlock_Create_spec Name F w Fn :
  lookupFunction F (TheModule w) = Some Fn ->
  exists w',
    BasicBlock_Create_SetInsertPoint Name F w = Ok tt w' /\
    InsertPoint w' = Some (F, length (BasicBlocks Fn)) /\
    lookupFunction F (TheModule w') =
      Some (mkFunction (FName Fn) (FArgs Fn)
              (BasicBlocks Fn ++ [mkBasicBlock (uniqueName Name Fn).1 []])
              (uniqueName Name Fn).2) /\
    (forall G, G <> F ->
       FunctionList (TheModule w') !! G = FunctionList (TheModule w) !! G) /\
    length (FunctionList (TheModule w')) = length (FunctionList (TheModule w)) /\
    ValSymTab (TheModule w') = ValSymTab (TheModule w) /\
    stderr w' = stderr w.
Proof.
  intros HF. unfold BasicBlock_Create_SetInsertPoint. rewrite HF.
  destruct (uniqueName Name Fn) as [Name' last].
  eexists; split; [reflexivity|]. simpl.
  rewrite lookupFunction_insert_eq by (eapply lookupFunction_Some_lt, HF).
  repeat split; auto.
  - intros G HG. by rewrite list_lookup_insert_ne.
  - apply length_insert.
Qed.

Lemma same_names_BasicBlock F w w' Fn Name :
  lookupFunction F (TheModule w) = Some Fn ->
  BasicBlock_Create_SetInsertPoint Name F w = Ok tt w' ->
  same_names (TheModule w) (TheModule w').
Proof.
  intros HF H. destruct (BasicBlock_Create_spec Name F w Fn HF)
    as (w1 & E & _ & HF' & Hoth & _ & HS & _).
  rewrite E in H. injection H as <-. split; [done|]. intros G.
  destruct (decide (G = F)) as [->|HG].
  - rewrite HF', HF. reflexivity.
  - unfold lookupFunction. rewrite Hoth by done. reflexivity.
Qed.

Lemma PrototypeAST_codegen_eq P w :
  PrototypeAST_codegen P w =
    Ok (Some (Function_Create (getName P) (setArgNames (ProtoArgs P) [] 0)
                (setArgNames_last (ProtoArgs P) [] 0) (TheModule w)).1)
       (set_TheModule
          (Function_Create (getName P) (setArgNames (ProtoArgs P) [] 0)
             (setArgNames_last (ProtoArgs P) [] 0) (TheModule w)).2 w).
Proof. unfold PrototypeAST_codegen. by destruct (Function_Create _ _ _ _). Qed.

Lemma prologue_spec Fn w :
  wfModule (TheModule w) ->
  exists F decl w1,
    FunctionAST_prologue Fn w = Ok (Some F) w1 /\
    lookupFunction F (TheModule w1) = Some decl /\
    FName decl = getName (Proto Fn) /\
    InsertPoint w1 = Some (F, pred (length (BasicBlocks decl))) /\
    wfModule (TheModule w1) /\
    (forall G, G <> F ->
       lookupFunction G (TheModule w1) = lookupFunction G (TheModule w)) /\
    NamedValues w1 = bindArguments F decl /\
    stderr w1 = stderr w /\
    match getFunction (getName (Proto Fn)) (TheModule w) with
    | Some F' =>
        F = F' /\
        exists old, lookupFunction F (TheModule w) = Some old /\
          FArgs decl = FArgs old /\
          BasicBlocks decl =
            BasicBlocks old ++ [mkBasicBlock (uniqueName "entry" old).1 []] /\
          length (FunctionList (TheModule w1)) =
            length (FunctionList (TheModule w))
    | None =>
        F = length (FunctionList (TheModule w)) /\
        lookupFunction F (TheModule w) = None /\
        FArgs decl = setArgNames (ProtoArgs (Proto Fn)) [] 0 /\
        (exists entry, BasicBlocks decl = [mkBasicBlock entry []]) /\
        length (FunctionList (TheModule w1)) =
          S (length (FunctionList (TheModule w)))
    end.
Proof.
  intros W. unfold FunctionAST_prologue. unfold bind at 1, gets at 1.
  destruct (getFunction (getName (Proto Fn)) (TheModule w)) as [F|] eqn:EG.
  - destruct (proj1 W _ _ EG) as (Hne & old & Hold & Hname).
    destruct (BasicBlock_Create_spec "entry" F w old Hold)
      as (w1 & E & HIP & HF & Hoth & Hlen & HS & Herr).
    unfold bind at 1, ret at 1. unfold bind at 1. rewrite E.
    unfold bind at 1, gets at 1. rewrite HF.
    eexists F, _, _. split; [reflexivity|]. simpl.
    split; [exact HF|]. simpl. rewrite length_app, Nat.add_1_r. simpl.
    split_and!; auto.
    + eapply wfModule_same_names; [|exact W].
      eapply same_names_BasicBlock; eauto.
    + intros G HG. unfold lookupFunction. by rewrite Hoth.
    + eauto 10.
  - unfold bind at 1. rewrite PrototypeAST_codegen_eq.
    pose proof (wfModule_Function_Create (getName (Proto Fn))
      (setArgNames (ProtoArgs (Proto Fn)) [] 0)
      (setArgNames_last (ProtoArgs (Proto Fn)) [] 0) (TheModule w) W) as W'.
    destruct (Function_Create_spec (getName (Proto Fn))
      (setArgNames (ProtoArgs (Proto Fn)) [] 0)
      (setArgNames_last (ProtoArgs (Proto Fn)) [] 0) (TheModule w) W)
      as (Name' & last' & EC & Hfree & Hemp & Hsame).
    rewrite EC in *. simpl in W'. cbn [fst snd].
    rewrite (Hsame EG) in *.
    set (m1 := mkModule _ _ last') in *.
    set (F := length (FunctionList (TheModule w))).
    assert (lookupFunction F m1 =
      Some (mkFunction (getName (Proto Fn))
              (setArgNames (ProtoArgs (Proto Fn)) [] 0) []
              (setArgNames_last (ProtoArgs (Proto Fn)) [] 0))) as HF1.
    { unfold m1.
      rewrite (lookupFunction_snoc _ _ _ _ _ (ValSymTab (TheModule w)) last').
      by rewrite decide_True. }
    destruct (BasicBlock_Create_spec "entry" F (set_TheModule m1 w) _ HF1)
      as (w1 & E & HIP & HF & Hoth & Hlen & HS & Herr).
    unfold bind at 1. rewrite E. unfold bind at 1, gets at 1. rewrite HF.
    eexists F, _, _. split; [reflexivity|]. simpl.
    split; [exact HF|]. simpl.
    split_and!; auto.
    + eapply wfModule_same_names; [|exact W'].
      eapply (same_names_BasicBlock F (set_TheModule m1 w)); eauto.
    + intros G HG.
      transitivity (lookupFunction G m1).
      { unfold lookupFunction. by rewrite Hoth. }
      unfold m1.
      rewrite (lookupFunction_snoc _ _ _ _ _ (ValSymTab (TheModule w))
                 (LastUnique (TheModule w))), module_eta.
      by rewrite decide_False.
    + unfold lookupFunction. by rewrite lookup_ge_None_2.
    + by eexists.
    + rewrite Hlen. simpl. rewrite length_app. simpl. lia.
Qed.

(** ** Function definitions *)

(** C4: when the body of a function definition fails to generate, code
    generation of the definition returns an absent result and erases the
    function: its slot in the module is empty, its name is no longer bound,
    and every function the module still holds is one it held before the
    definition, unchanged; so nothing emitted for the failed definition
    remains. *)
Theorem FunctionAST_codegen_failure Fn w F w1 w2 :
  wfModule (TheModule w) ->
  FunctionAST_prologue Fn w = Ok (Some F) w1 ->
  ExprAST_codegen (Body Fn) w1 = Ok None w2 ->
  exists w',
    FunctionAST_codegen Fn w = Ok None w' /\
    lookupFunction F (TheModule w') = None /\
    getFunction (getName (Proto Fn)) (TheModule w') = None /\
    (forall G Gn, lookupFunction G (TheModule w') = Some Gn ->
       lookupFunction G (TheModule w) = Some Gn) /\
    wfModule (TheModule w').
Proof.
  intros W HP HB.
  destruct (prologue_spec Fn w W)
    as (F' & decl & w1' & E & Hdecl & Hname & HIP & W1 & Hoth & _).
  rewrite E in HP. injection HP as -> ->.
  pose proof (ExprAST_codegen_frame _ _ _ _ HB) as Hfr.
  pose proof (wfModule_same_names _ _ (cg_frame_same_names _ _ Hfr) W1) as W2.
  pose proof (fr_signature _ _ Hfr F) as Hsig. rewrite Hdecl in Hsig.
  destruct (lookupFunction F (TheModule w2)) as [decl2|] eqn:Hdecl2; [|done].
  injection Hsig as Hn2 _ _.
  destruct (eraseFromParent F w2) as [[] w'| |] eqn:EE;
    [|unfold eraseFromParent in EE; rewrite Hdecl2 in EE; discriminate..].
  destruct (wfModule_erase F w2 w' W2 EE) as (W' & Hgone & Hoth' & Hget).
  exists w'. unfold FunctionAST_codegen, bind. rewrite E, HB, EE.
  split; [reflexivity|]. split; [done|]. split.
  { rewrite <- Hname, <- Hn2. by apply Hget. }
  split; [|done].
  intros G Gn HG. destruct (decide (G = F)) as [->|Hne]; [congruence|].
  rewrite Hoth' in HG by done. rewrite <- Hoth by done.
  unfold lookupFunction in *. rewrite <- (fr_others _ _ Hfr G); [done|].
  intros b. rewrite HIP. congruence.
Qed.

(** [def bad(x) y] in a fresh module: [y] is unknown, the function is
    erased and the module is empty again. *)
Lemma FunctionAST_codegen_failure_witness :
  let w := initialWorld "" in
  let w1 := final (FunctionAST_prologue def_bad w) in
  let w2 := final (ExprAST_codegen (Body def_bad) w1) in
  (wfModule (TheModule w) /\
   FunctionAST_prologue def_bad w = Ok (Some 0) w1 /\
   ExprAST_codegen (Body def_bad) w1 = Ok None w2) /\
  exists w',
    FunctionAST_codegen def_bad w = Ok None w' /\
    lookupFunction 0 (TheModule w') = None /\
    getFunction "bad" (TheModule w') = None /\
    FunctionList (TheModule w') = [None].
Proof.
  intros w w1 w2.
  assert (wfModule (TheModule w)) as H1 by apply wfModule_empty.
  assert (FunctionAST_prologue def_bad w = Ok (Some 0) w1) as H2
    by (vm_compute; reflexivity).
  assert (ExprAST_codegen (Body def_bad) w1 = Ok None w2) as H3
    by (vm_compute; reflexivity).
  split; [auto|].
  destruct (FunctionAST_codegen_failure def_bad w 0 w1 w2 H1 H2 H3)
    as (w' & E & Hgone & Hget & _).
  exists w'. split_and!; try done.
  assert (FunctionAST_codegen def_bad w =
            Ok None (final (FunctionAST_codegen def_bad w))) as E'
    by (vm_compute; reflexivity).
  rewrite E' in E. injection E as <-. vm_compute. reflexivity.
Defined.

Lemma setArgNames_NoDup Args : forall named last,
  NoDup (named ++ Args) -> setArgNames Args named last = named ++ Args.
Proof.
  induction Args as [|a Args IH]; intros named last HND; simpl.
  - by rewrite app_nil_r.
  - assert (a ∉ named) as Hnot.
    { apply NoDup_app in HND as (_ & H & _). intros Hin.
      apply (H a Hin). left. }
    rewrite (bool_decide_false _ Hnot).
    assert (setArgNames Args (named ++ [a]) last = named ++ a :: Args) as E.
    { rewrite IH; rewrite <- app_assoc; done. }
    by destruct (String.eqb a "").
Qed.

(** ** Prototypes *)

(** C2 (as amended): prototype code generation always creates a new
    function, in a fresh slot at the end of the module, without a body and
    with the prototype's parameter names (made unique; unchanged when they
    are distinct); it never retrieves an existing declaration.  When the
    name is free the function takes it; when the name is already declared
    the new function gets another, unused name, and the existing declaration
    stays bound to the name.  The symbol table stays consistent with the
    function list, so a name identifies at most one function. *)
Theorem PrototypeAST_codegen_creates P w :
  wfModule (TheModule w) ->
  exists Fn w',
    PrototypeAST_codegen P w =
      Ok (Some (length (FunctionList (TheModule w)))) w' /\
    FunctionList (TheModule w') = FunctionList (TheModule w) ++ [Some Fn] /\
    BasicBlocks Fn = [] /\
    FArgs Fn = setArgNames (ProtoArgs P) [] 0 /\
    (NoDup (ProtoArgs P) -> FArgs Fn = ProtoArgs P) /\
    (getFunction (getName P) (TheModule w) = None -> FName Fn = getName P) /\
    (forall G, getFunction (getName P) (TheModule w) = Some G ->
       FName Fn <> getName P /\
       getFunction (getName P) (TheModule w') = Some G /\
       G <> length (FunctionList (TheModule w))) /\
    wfModule (TheModule w').
Proof.
  intros W. rewrite PrototypeAST_codegen_eq.
  pose proof (wfModule_Function_Create (getName P)
    (setArgNames (ProtoArgs P) [] 0) (setArgNames_last (ProtoArgs P) [] 0)
    (TheModule w) W) as W'.
  destruct (Function_Create_spec (getName P)
    (setArgNames (ProtoArgs P) [] 0) (setArgNames_last (ProtoArgs P) [] 0)
    (TheModule w) W)
    as (Name' & last' & EC & Hfree & Hemp & Hsame).
  rewrite EC in *. cbn [fst snd] in *.
  eexists _, _. split; [reflexivity|]. simpl. split_and!; auto.
  - intros HND. by apply (setArgNames_NoDup _ []).
  - intros G HG. unfold getFunction in *.
    assert (Name' <> getName P) as Hne by congruence.
    split_and!; [done| |].
    + destruct (decide (getName P = "")); [done|]. simpl.
      by rewrite lookup_insert_ne.
    + destruct (proj1 W _ _ HG) as (_ & Gn & HGn & _).
      apply lookupFunction_Some_lt in HGn. lia.
Qed.

(** A second [extern foo(a b)]: a second function, named [foo.1]. *)
Lemma PrototypeAST_codegen_creates_witness :
  wfModule (TheModule after_extern_foo) /\
  exists w',
    PrototypeAST_codegen extern_foo after_extern_foo = Ok (Some 1) w' /\
    FunctionList (TheModule w') =
      [Some foo_declared; Some (mkFunction "foo.1" ["a"; "b"] [] 0)] /\
    getFunction "foo" (TheModule w') = Some 0 /\
    wfModule (TheModule w').
Proof.
  assert (wfModule (TheModule after_extern_foo)) as W.
  { pose proof (wfModule_Function_Create "foo" ["a"; "b"] 0 emptyModule
                 wfModule_empty) as H.
    vm_compute in H. vm_compute. exact H. }
  split; [exact W|].
  destruct (PrototypeAST_codegen_creates extern_foo after_extern_foo W)
    as (Fn & w' & E & HL & _ & _ & _ & _ & Hex & W').
  exists w'. split_and!; try done.
  - assert (PrototypeAST_codegen extern_foo after_extern_foo =
              Ok (Some 1) (final (PrototypeAST_codegen extern_foo after_extern_foo)))
      as E' by (vm_compute; reflexivity).
    rewrite E' in E. injection E as <-. vm_compute. reflexivity.
  - apply (Hex 0). vm_compute. reflexivity.
Defined.

(** After [extern foo(a b)], generating the same prototype again does not
    return the existing declaration. *)
Lemma prototype_codegen_reuses_counterexample :
  ~ prototype_codegen_reuses extern_foo after_extern_foo.
Proof.
  intros H. destruct (H 0) as (w' & E & _); [vm_compute; reflexivity|].
  vm_compute in E. discriminate E.
Qed.

Lemma bindArguments_fold F (l : list string) :
  forall (k : nat) (NV : gmap string (option Value)),
  let NV' :=
    foldl (fun NV '(i, a) => <[a := Some (Argument F i)]> NV) NV
      (imap (fun i a => (k + i, a)) l) in
  (forall i x, l !! i = Some x -> (forall j, i < j -> l !! j <> Some x) ->
     NV' !! x = Some (Some (Argument F (k + i)))) /\
  (forall x, x ∉ l -> NV' !! x = NV !! x).
Proof.
  induction l as [|a l IH]; intros k NV; simpl.
  - split; [by intros ? ? ?|done].
  - rewrite (imap_ext _ (fun i a => (S k + i, a)) l)
      by (intros; simpl; f_equal; lia).
    destruct (IH (S k) (<[a := Some (Argument F (k + 0))]> NV)) as [H1 H2].
    split.
    + intros [|i] x Hx Hlast; simpl in Hx.
      * injection Hx as ->. rewrite H2, lookup_insert_eq; [done|].
        intros [j Hj]%list_elem_of_lookup. by apply (Hlast (S j)); [lia|].
      * rewrite (H1 i x Hx).
        -- do 3 f_equal. lia.
        -- intros j Hj. apply (Hlast (S j)). lia.
    + intros x Hx. apply not_elem_of_cons in Hx as [Hne Hx].
      rewrite H2 by done. by rewrite lookup_insert_ne.
Qed.

(** The table [bindArguments] builds: every name of the declaration's
    parameter list denotes the argument at the last position that carries
    the name, and no other name is bound. *)
Lemma bindArguments_lookup F Fn :
  (forall i x, FArgs Fn !! i = Some x ->
     (forall j, i < j -> FArgs Fn !! j <> Some x) ->
     bindArguments F Fn !! x = Some (Some (Argument F i))) /\
  (forall x, x ∉ FArgs Fn -> bindArguments F Fn !! x = None).
Proof.
  destruct (bindArguments_fold F (FArgs Fn) 0 ∅) as [H1 H2]. split.
  - intros i x Hx Hlast. exact (H1 i x Hx Hlast).
  - intros x Hx. rewrite <- (lookup_empty (M := gmap string) x). exact (H2 x Hx).
Qed.

(** C10: when the name of a definition is already declared, code generation
    of the definition does not depend on the definition's own parameter
    list: two definitions with the same name and body but different
    parameters generate identically.  No function is added to the module
    and the declaration keeps its parameters; the symbol table the body is
    generated against is populated from the parameter names of the existing
    declaration: each of them denotes the declaration's argument at the
    (last) position that carries the name, and no other name is bound, the
    parameter names of the definition included.  When code generation
    returns, the table still is that one, plus null entries for the names
    the body looked up in vain. *)
Theorem FunctionAST_codegen_existing_declaration
    Name Args1 Args2 B w F decl :
  getFunction Name (TheModule w) = Some F ->
  lookupFunction F (TheModule w) = Some decl ->
  FunctionAST_codegen (mkFunctionAST (mkPrototypeAST Name Args1) B) w =
  FunctionAST_codegen (mkFunctionAST (mkPrototypeAST Name Args2) B) w /\
  (exists w1,
     FunctionAST_prologue (mkFunctionAST (mkPrototypeAST Name Args1) B) w =
       Ok (Some F) w1 /\
     FArgs <$> lookupFunction F (TheModule w1) = Some (FArgs decl) /\
     length (FunctionList (TheModule w1)) =
       length (FunctionList (TheModule w)) /\
     (forall i x, FArgs decl !! i = Some x ->
        (forall j, i < j -> FArgs decl !! j <> Some x) ->
        NamedValues w1 !! x = Some (Some (Argument F i))) /\
     (forall x, x ∉ FArgs decl -> NamedValues w1 !! x = None)) /\
  forall r w',
    FunctionAST_codegen (mkFunctionAST (mkPrototypeAST Name Args1) B) w =
      Ok r w' ->
    length (FunctionList (TheModule w')) = length (FunctionList (TheModule w)) /\
    (forall i x, FArgs decl !! i = Some x ->
       (forall j, i < j -> FArgs decl !! j <> Some x) ->
       NamedValues w' !! x = Some (Some (Argument F i))) /\
    (forall x, x ∉ FArgs decl ->
       NamedValues w' !! x = None \/ NamedValues w' !! x = Some None).
Proof.
  intros HG HF.
  destruct (bindArguments_lookup F decl) as [Hin Hout].
  destruct (BasicBlock_Create_spec "entry" F w decl HF)
    as (w1 & E & _ & HF1 & _ & Hlen & _).
  assert (forall Args,
    FunctionAST_prologue (mkFunctionAST (mkPrototypeAST Name Args) B) w =
    Ok (Some F) (set_NamedValues (bindArguments F decl) w1)) as HP.
  { intros Args. unfold FunctionAST_prologue. unfold bind at 1, gets at 1.
    simpl. rewrite HG. unfold bind at 1, ret at 1.
    unfold bind. rewrite E. unfold gets. rewrite HF1. reflexivity. }
  split.
  { unfold FunctionAST_codegen, bind. by rewrite !HP. }
  split.
  { eexists. split; [apply HP|]. simpl. rewrite HF1. auto. }
  assert (forall w2,
    cg_frame (set_NamedValues (bindArguments F decl) w1) w2 ->
    (forall i x, FArgs decl !! i = Some x ->
       (forall j, i < j -> FArgs decl !! j <> Some x) ->
       NamedValues w2 !! x = Some (Some (Argument F i))) /\
    (forall x, x ∉ FArgs decl ->
       NamedValues w2 !! x = None \/ NamedValues w2 !! x = Some None)) as Hkeep.
  { intros w2 Hfr. split.
    - intros i x Hx Hlast.
      destruct (fr_NamedValues _ _ Hfr x) as [H|[H1 H2]]; simpl in *.
      + rewrite H. by apply Hin.
      + rewrite (Hin i x Hx Hlast) in H1. discriminate.
    - intros x Hx.
      destruct (fr_NamedValues _ _ Hfr x) as [H|[H1 H2]]; simpl in *; [|auto].
      left. rewrite H. by apply Hout. }
  intros r w'. unfold FunctionAST_codegen. unfold bind at 1. rewrite HP.
  unfold bind at 1. cbn [Body].
  destruct (ExprAST_codegen B (set_NamedValues (bindArguments F decl) w1))
    as [[V|] w2| |] eqn:EB; [| |done..].
  - pose proof (ExprAST_codegen_frame _ _ _ _ EB) as Hfr.
    unfold bind, CreateRet.
    destruct (Insert (ReturnInst V) w2) as [I w3| |] eqn:EI; [|done..].
    pose proof (Insert_frame _ _ _ _ EI) as Hfr3.
    intros [= _ <-].
    assert (cg_frame (set_NamedValues (bindArguments F decl) w1) w3) as Hfr'
      by (etransitivity; eassumption).
    split; [rewrite (fr_length _ _ Hfr'); exact Hlen|]. by apply Hkeep.
  - pose proof (ExprAST_codegen_frame _ _ _ _ EB) as Hfr.
    unfold bind, eraseFromParent.
    destruct (lookupFunction F (TheModule w2)); [|done].
    intros [= _ <-]. simpl. rewrite length_insert.
    split; [rewrite (fr_length _ _ Hfr); exact Hlen|].
    destruct (Hkeep w2 Hfr) as [K1 K2]. split; assumption.
Qed.

(** After [extern foo(a b)]: the body of a definition of [foo] sees [a] and
    [b], whatever parameters the definition names.  [def foo(x y) a+b]
    generates exactly as [def foo(a b) a+b] does, and succeeds;
    [def foo(x y) x+y] fails, [x] and [y] being unknown. *)
Lemma FunctionAST_codegen_existing_declaration_witness :
  let body := Body def_foo in
  (getFunction "foo" (TheModule after_extern_foo) = Some 0 /\
   lookupFunction 0 (TheModule after_extern_foo) = Some foo_declared) /\
  FunctionAST_codegen (mkFunctionAST (mkPrototypeAST "foo" ["x"; "y"]) body)
    after_extern_foo =
  FunctionAST_codegen (mkFunctionAST (mkPrototypeAST "foo" ["a"; "b"]) body)
    after_extern_foo /\
  (exists w1,
     FunctionAST_prologue
       (mkFunctionAST (mkPrototypeAST "foo" ["x"; "y"]) body) after_extern_foo =
       Ok (Some 0) w1 /\
     NamedValues w1 !! "a" = Some (Some (Argument 0 0)) /\
     NamedValues w1 !! "b" = Some (Some (Argument 0 1)) /\
     NamedValues w1 !! "x" = None /\ NamedValues w1 !! "y" = None) /\
  result (FunctionAST_codegen
            (mkFunctionAST (mkPrototypeAST "foo" ["x"; "y"]) body)
            after_extern_foo) = Some (Some 0) /\
  result (FunctionAST_codegen
            (mkFunctionAST (mkPrototypeAST "foo" ["x"; "y"])
               (BinaryExprAST "+" (VariableExprAST "x") (VariableExprAST "y")))
            after_extern_foo) = Some None.
Proof.
  intros body.
  assert (getFunction "foo" (TheModule after_extern_foo) = Some 0) as H1
    by (vm_compute; reflexivity).
  assert (lookupFunction 0 (TheModule after_extern_foo) = Some foo_declared)
    as H2 by reflexivity.
  split; [auto|].
  destruct (FunctionAST_codegen_existing_declaration "foo"
              ["x"; "y"] ["a"; "b"] body after_extern_foo 0
              foo_declared H1 H2) as (Heq & (w1 & Hpro & _ & _ & Hin & Hout) & _).
  split; [exact Heq|]. split.
  - exists w1. split; [exact Hpro|]. split_and!.
    + apply (Hin 0 "a" eq_refl).
      intros [|[|j]] Hj; simpl; [lia|discriminate|discriminate].
    + apply (Hin 1 "b" eq_refl).
      intros [|[|j]] Hj; simpl; [lia|lia|discriminate].
    + apply Hout. apply (bool_decide_unpack _). vm_compute. exact I.
    + apply Hout. apply (bool_decide_unpack _). vm_compute. exact I.
  - split; vm_compute; reflexivity.
Defined.

Lemma bindArguments_ab F Fn :
  FArgs Fn = ["a"; "b"] ->
  bindArguments F Fn =
    <["b" := Some (Argument F 1)]> (<["a" := Some (Argument F 0)]> ∅).
Proof. unfold bindArguments. by intros ->. Qed.

(** C3 (as amended): in a module that does not declare [foo] yet, processing
    [extern foo(a b)] adds the declaration, and code generation of
    [def foo(a b) a+b] then finds that declaration by name, attaches the
    body to it and succeeds: it returns the declaration's own handle, writes
    no diagnostic, and the module holds what it held before plus a single
    function [foo], now with a body; no second signature is created. *)
Theorem extern_then_def_foo w :
  getFunction "foo" (TheModule w) = None ->
  let F := length (FunctionList (TheModule w)) in
  exists w1 w2,
    PrototypeAST_codegen extern_foo w = Ok (Some F) w1 /\
    FunctionList (TheModule w1) =
      FunctionList (TheModule w) ++ [Some foo_declared] /\
    FunctionAST_codegen def_foo w1 = Ok (Some F) w2 /\
    FunctionList (TheModule w2) =
      FunctionList (TheModule w) ++ [Some (foo_defined F)] /\
    getFunction "foo" (TheModule w2) = Some F /\
    stderr w2 = stderr w.
Proof.
  intros HG F. subst F. unfold getFunction in HG.
  exists (set_TheModule
            (mkModule (FunctionList (TheModule w) ++ [Some foo_declared])
               (<["foo" := length (FunctionList (TheModule w))]>
                  (ValSymTab (TheModule w)))
               (LastUnique (TheModule w))) w).
  eexists. split.
  { unfold PrototypeAST_codegen, Function_Create. simpl String.eqb. cbv iota.
    cbn [getName extern_foo]. rewrite HG. reflexivity. }
  split; [reflexivity|].
  split.
  { unfold FunctionAST_codegen, FunctionAST_prologue, foo_declared.
    mstep. unfold getFunction. wsimpl. cbn [Proto def_foo getName].
    rewrite lookup_insert_eq. mstep.
    erewrite (bind_Ok (BasicBlock_Create_SetInsertPoint _ _)); cycle 1.
    { unfold BasicBlock_Create_SetInsertPoint. wsimpl.
      rewrite lookupFunction_last.
      change (uniqueName "entry" _) with ("entry", 0%N). cbv beta iota. wsimpl.
      rewrite insert_last. reflexivity. }
    mstep. wsimpl.
    rewrite lookupFunction_last. mstep.
    rewrite bindArguments_ab by reflexivity.
    cbn [Body def_foo ExprAST_codegen].
    unfold VariableExprAST_codegen. mstep.
    erewrite (bind_Ok (NamedValues_index _)); cycle 1.
    { unfold NamedValues_index. wsimpl.
      rewrite lookup_insert_ne by done. rewrite lookup_insert_eq. reflexivity. }
    mstep.
    erewrite (bind_Ok (NamedValues_index _)); cycle 1.
    { unfold NamedValues_index. wsimpl.
      rewrite lookup_insert_eq. reflexivity. }
    mstep.
    unfold BinaryExprAST_dispatch. simpl Ascii.eqb. mstep.
    unfold CreateAdd, CreateBinOp. cbn [FoldBinOp].
    erewrite (bind_Ok (Insert _)); cycle 1.
    { unfold Insert. wsimpl. rewrite lookupFunction_last. wsimpl.
      cbn [app length]. rewrite bool_decide_true by lia.
      change (uniqueName _ _) with ("addtmp", 0%N). cbv beta iota.
      cbn [setValueName].
      rewrite insert_last. unfold appendInst. wsimpl. cbn [app alter list_alter].
      wsimpl. reflexivity. }
    mstep. unfold CreateRet.
    erewrite (bind_Ok (Insert _)); cycle 1.
    { unfold Insert. wsimpl. rewrite lookupFunction_last. wsimpl.
      cbn [app length]. rewrite bool_decide_true by lia.
      change (uniqueName _ _) with ("", 0%N). cbv beta iota.
      cbn [setValueName].
      rewrite insert_last. unfold appendInst. wsimpl. cbn [app alter list_alter].
      wsimpl. reflexivity. }
    mstep. reflexivity. }
  split; [reflexivity|]. split; [|reflexivity].
  unfold getFunction. simpl. apply lookup_insert_eq.
Qed.

(** The two forms typed at the prompt of a fresh run. *)
Lemma extern_then_def_foo_witness :
  let run := final (main 20 (initialWorld "extern foo(a b) def foo(a b) a+b")) in
  getFunction "foo" (TheModule (initialWorld "")) = None /\
  (exists w1 w2,
     PrototypeAST_codegen extern_foo (initialWorld "") = Ok (Some 0) w1 /\
     FunctionAST_codegen def_foo w1 = Ok (Some 0) w2 /\
     FunctionList (TheModule w2) = [Some (foo_defined 0)]) /\
  result ((installBinopPrecedence;; getNextToken;; ParseExtern 20)
            (initialWorld "extern foo(a b)")) = Some (Some extern_foo) /\
  result ((installBinopPrecedence;; getNextToken;; ParseDefinition 20)
            (initialWorld "def foo(a b) a+b")) = Some (Some def_foo) /\
  FunctionList (TheModule run) = [Some (foo_defined 0)] /\
  getFunction "foo" (TheModule run) = Some 0 /\
  Forall (fun o => forall s, o = Text s -> s = "ready> " \/
            s = "Read extern: " \/ s = "Read function definition:" \/ s = nl)
    (stderr run).
Proof.
  intros run.
  assert (getFunction "foo" (TheModule (initialWorld "")) = None) as H
    by (vm_compute; reflexivity).
  split; [exact H|]. split.
  { destruct (extern_then_def_foo (initialWorld "") H)
      as (w1 & w2 & E1 & _ & E2 & HL & _).
    exists w1, w2. auto. }
  split; [vm_compute; reflexivity|]. split; [vm_compute; reflexivity|].
  split; [vm_compute; reflexivity|]. split; [vm_compute; reflexivity|].
  vm_compute.
  repeat (constructor; [intros s Hs; try discriminate Hs; injection Hs as <-; auto 6|]).
  constructor.
Defined.

(** In a run that has processed [extern foo(x)], the form [extern foo(a b)]
    declares a second function, [foo.1], and [def foo(a b) a+b] finds the
    first one: its parameter is [x], so the body fails on [a] and on [b],
    and the declaration is erased. *)
Lemma extern_then_def_counterexample :
  ~ extern_then_def_succeeds (final (main 20 (initialWorld "extern foo(x)"))).
Proof.
  intros H.
  destruct (H 1 (final (PrototypeAST_codegen extern_foo
                          (final (main 20 (initialWorld "extern foo(x)"))))))
    as (F' & w2 & E & _); [vm_compute; reflexivity|].
  vm_compute in E. discriminate E.
Qed.

(** ** The parser *)

Lemma parser_ok_ret {A} (Q : A -> World -> Prop) a :
  (forall w, Q a w) -> parser_ok Q (ret a).
Proof. intros H w a' w' T [= <- <-]. auto. Qed.

Lemma parser_ok_bind {A B} (Q1 : A -> Prop) (Q2 : B -> World -> Prop)
    (m : M A) (k : A -> M B) :
  parser_ok (fun a _ => Q1 a) m ->
  (forall a, Q1 a -> parser_ok Q2 (k a)) ->
  parser_ok Q2 (bind m k).
Proof.
  intros Hm Hk w b w' T. unfold bind.
  destruct (m w) as [a w1| |] eqn:E; [|done..].
  destruct (Hm _ _ _ T E) as (T1 & S1 & HQ). intros H.
  destruct (Hk a HQ _ _ _ T1 H) as (T2 & S2 & HQ2).
  split_and!; [done|congruence|done].
Qed.

Lemma parser_ok_weaken {A} (Q1 Q2 : A -> World -> Prop) (m : M A) :
  parser_ok Q1 m -> (forall a w, Q1 a w -> Q2 a w) -> parser_ok Q2 m.
Proof. intros H HQ w a w' T E. destruct (H _ _ _ T E) as (? & ? & ?). auto. Qed.

Lemma parser_ok_undefined {A} (Q : A -> World -> Prop) :
  parser_ok Q undefined.
Proof. intros w a w' _ H. discriminate H. Qed.

Lemma getNextToken_ok : parser_ok (fun _ _ => True) getNextToken.
Proof.
  intros w a w' T. unfold getNextToken, bind, modify, ret.
  destruct (getok w) as [t w1| |] eqn:E; [|done..].
  intros [= <- <-]. unfold getok in E.
  repeat (case_match; simplify_eq); split_and!; done.
Qed.

Lemma gets_ok {A} (f : World -> A) : parser_ok (fun _ _ => True) (gets f).
Proof. intros w a w' T [= <- <-]. auto. Qed.

Lemma LogError_ok {A} (Q : option A -> Prop) Str :
  Q None -> parser_ok (fun r _ => Q r) (LogError Str).
Proof. intros H w a w' T [= <- <-]. split_and!; done. Qed.

Lemma main_precedence_pos c : (0 < main_precedence c)%Z -> is_binop c.
Proof.
  unfold main_precedence, is_binop. repeat case_decide; auto. lia.
Qed.

Lemma main_precedence_bound c : (0 <= main_precedence c <= 40)%Z.
Proof. unfold main_precedence. repeat case_decide; lia. Qed.

Lemma GetTokPrecedence_ok :
  parser_ok
    (fun p w =>
       p = (-1)%Z \/
       ((0 < p)%Z /\ p = main_precedence (char_of_int (CurTok w))))
    GetTokPrecedence.
Proof.
  intros w p w' T. unfold GetTokPrecedence.
  destruct (isascii (CurTok w)); simpl; [|intros [= <- <-]; auto].
  pose proof (T (char_of_int (CurTok w))) as Hc.
  destruct (BinopPrecedence w !! char_of_int (CurTok w)) as [q|] eqn:E;
    simpl in Hc.
  - destruct (Z.leb_spec q 0); intros [= <- <-];
      (split; [exact T|split; [done|]]); [auto|]. right. simpl. auto with lia.
  - simpl. intros [= <- <-]. split; [|auto].
    intros c. simpl. destruct (decide (char_of_int (CurTok w) = c)) as [<-|Hne].
    + rewrite lookup_insert_eq. simpl. done.
    + rewrite lookup_insert_ne by done. apply T.
Qed.

Lemma ParseNumberExpr_ok : parses_ok ParseNumberExpr.
Proof.
  unfold ParseNumberExpr.
  eapply parser_ok_bind; [apply gets_ok|]. intros v _.
  eapply parser_ok_bind; [apply getNextToken_ok|]. intros _ _.
  apply parser_ok_ret. intros _ e [= <-]. exact I.
Qed.

(** The parser functions, by induction on the fuel: every expression they
    return has operators of the table only. *)
Lemma parser_invariant fuel :
  parses_ok (ParseExpression fuel) /\
  parses_ok (ParsePrimary fuel) /\
  parses_ok (ParseParenExpr fuel) /\
  parses_ok (ParseIdentifierExpr fuel) /\
  (forall Args, Forall (binops is_binop) Args ->
     parses_args_ok (ParseCallArgs fuel Args)) /\
  (forall ExprPrec LHS, (0 <= ExprPrec)%Z -> binops is_binop LHS ->
     parses_ok (ParseBinOpRHS fuel ExprPrec LHS)).
Proof.
  induction fuel as [|fuel (IHe & IHp & IHparen & IHid & IHargs & IHbin)].
  { split_and!; unfold parser_ok; intros; discriminate. }
  assert (parsed_ok None) as HNone by (intros e [=]).
  split_and!.
  - (* ParseExpression *)
    simpl. eapply parser_ok_bind; [exact IHp|].
    intros [LHS|] HL; [|apply parser_ok_ret; intros _; exact HNone].
    apply IHbin; [lia|]. by apply HL.
  - (* ParsePrimary *)
    simpl. eapply parser_ok_bind; [apply gets_ok|]. intros tok _.
    repeat case_match; auto using ParseNumberExpr_ok, LogError_ok.
  - (* ParseParenExpr *)
    simpl. eapply parser_ok_bind; [apply getNextToken_ok|]. intros _ _.
    eapply parser_ok_bind; [exact IHe|].
    intros [V|] HV; [|apply parser_ok_ret; intros _; exact HNone].
    eapply parser_ok_bind; [apply gets_ok|]. intros tok _.
    case_match; [by apply LogError_ok|].
    eapply parser_ok_bind; [apply getNextToken_ok|]. intros _ _.
    apply parser_ok_ret. intros _ e [= <-]. by apply HV.
  - (* ParseIdentifierExpr *)
    simpl. eapply parser_ok_bind; [apply gets_ok|]. intros IdName _.
    eapply parser_ok_bind; [apply getNextToken_ok|]. intros _ _.
    eapply parser_ok_bind; [apply gets_ok|]. intros tok _.
    case_match; [apply parser_ok_ret; by intros _ e [= <-]|].
    eapply parser_ok_bind; [apply getNextToken_ok|]. intros _ _.
    eapply parser_ok_bind; [apply gets_ok|]. intros tok' _.
    eapply (parser_ok_bind parsed_args_ok).
    { case_match; [by apply IHargs|].
      apply parser_ok_ret. by intros _ l [= <-]. }
    intros [Args|] HA; [|apply parser_ok_ret; intros _; exact HNone].
    eapply parser_ok_bind; [apply getNextToken_ok|]. intros _ _.
    apply parser_ok_ret. intros _ e [= <-].
    apply (binops_Call is_binop IdName). by apply HA.
  - (* ParseCallArgs *)
    intros Args HArgs. simpl.
    eapply parser_ok_bind; [exact IHe|].
    intros [Arg|] HArg; [|apply parser_ok_ret; by intros].
    assert (Forall (binops is_binop) (Args ++ [Arg])) as HArgs'.
    { apply Forall_app. split; [done|]. apply Forall_singleton. by apply HArg. }
    eapply parser_ok_bind; [apply gets_ok|]. intros tok _.
    case_match; [apply parser_ok_ret; by intros _ l [= <-]|].
    case_match; [apply LogError_ok; by intros|].
    eapply parser_ok_bind; [apply getNextToken_ok|]. intros _ _.
    by apply IHargs.
  - (* ParseBinOpRHS *)
    intros ExprPrec LHS HPrec HLHS. simpl.
    intros w r w' T. unfold bind at 1.
    destruct (GetTokPrecedence w) as [TokPrec w1| |] eqn:EP; [|done..].
    destruct (GetTokPrecedence_ok _ _ _ T EP) as (T1 & S1 & HTok).
    destruct (Z.ltb_spec TokPrec ExprPrec) as [Hlt|Hge].
    { intros [= <- <-]. split_and!; [done..|]. by intros e [= <-]. }
    destruct HTok as [->|[Hpos HTok]]; [lia|].
    unfold bind at 1, gets at 1.
    assert (is_binop (char_of_int (CurTok w1))) as Hop.
    { apply main_precedence_pos. by rewrite <- HTok. }
    rewrite <- S1. generalize dependent (CurTok w1). intros BinOp HTok Hop.
    clear EP T S1. revert w1 r w' T1.
    change (parses_ok
      (getNextToken;;
       do RHS <- ParsePrimary fuel;
       match RHS with
       | Some RHS =>
           do NextPrec <- GetTokPrecedence;
           do RHS0 <- (if (TokPrec <? NextPrec)%Z
                       then (if (TokPrec =? INT_MAX)%Z then undefined
                             else ParseBinOpRHS fuel (TokPrec + 1)%Z RHS)
                       else ret (Some RHS));
           match RHS0 with
           | Some RHS1 =>
               ParseBinOpRHS fuel ExprPrec
                 (BinaryExprAST (char_of_int BinOp) LHS RHS1)
           | None => ret None
           end
       | None => ret None
       end)).
    eapply parser_ok_bind; [apply getNextToken_ok|]. intros _ _.
    eapply parser_ok_bind; [exact IHp|].
    intros [RHS|] HR; [|apply parser_ok_ret; intros _; exact HNone].
    eapply (parser_ok_bind (fun _ => True)).
    { eapply parser_ok_weaken; [apply GetTokPrecedence_ok|]. done. }
    intros NextPrec _.
    eapply (parser_ok_bind parsed_ok).
    { repeat case_match.
      - apply parser_ok_undefined.
      - apply IHbin; [lia|]. by apply HR.
      - apply parser_ok_ret. intros _ e [= <-]. by apply HR. }
    intros [RHS'|] HR'; [|apply parser_ok_ret; intros _; exact HNone].
    apply IHbin; [done|]. simpl. split_and!; [done..|]. by apply HR'.
Qed.

Lemma table_ok_installed w a w' :
  BinopPrecedence w = ∅ -> installBinopPrecedence w = Ok a w' -> table_ok w'.
Proof.
  intros HE [= _ <-] c. simpl. rewrite HE. unfold main_precedence.
  repeat case_decide; simplify_eq; try reflexivity.
  rewrite !lookup_insert_ne by done. by rewrite lookup_empty.
Qed.

(** ** Diagnostics of code generation *)

#[local] Instance no_invalid_binop_preorder : PreOrder no_invalid_binop.
Proof.
  split; [by intros w H|].
  intros w1 w2 w3 H12 H23 H. apply H12, H23, H.
Qed.

Lemma no_invalid_binop_same_stderr w w' :
  stderr w' = stderr w -> no_invalid_binop w w'.
Proof. unfold no_invalid_binop. by intros ->. Qed.

Lemma Insert_no_invalid I : respects no_invalid_binop (Insert I).
Proof.
  intros w a w' H. apply no_invalid_binop_same_stderr.
  eapply Insert_stderr, H.
Qed.

Lemma NamedValues_index_no_invalid Name :
  respects no_invalid_binop (NamedValues_index Name).
Proof.
  intros w a w'. unfold NamedValues_index.
  case_match; intros [= _ <-]; by apply no_invalid_binop_same_stderr.
Qed.

Lemma LogErrorV_no_invalid Str :
  Text ("Error: " +:+ Str +:+ nl) <> invalid_binop_diagnostic ->
  respects no_invalid_binop (LogErrorV Str).
Proof.
  intros Hne w a w' [= _ <-]. unfold no_invalid_binop. simpl.
  rewrite elem_of_app, list_elem_of_singleton. intros [H|H]; [done|].
  by destruct Hne.
Qed.

Lemma dispatch_no_invalid Op L R :
  is_binop Op -> respects no_invalid_binop (BinaryExprAST_dispatch Op L R).
Proof.
  unfold BinaryExprAST_dispatch, CreateAdd, CreateSub, CreateMul,
    CreateBinOp, CreateICmpULT, CreateZExt.
  intros [-> | [-> | [-> | ->]]]; simpl;
    repeat first [ apply respects_ret, _ | apply Insert_no_invalid
                 | (apply respects_bind; [apply _| |intros ?])
                 | case_match ].
Qed.

Lemma ExprAST_codegen_no_invalid e :
  binops is_binop e -> respects no_invalid_binop (ExprAST_codegen e).
Proof.
  apply (respects_ExprAST_codegen no_invalid_binop is_binop);
    auto using Insert_no_invalid, NamedValues_index_no_invalid,
      dispatch_no_invalid;
    apply LogErrorV_no_invalid; vm_compute; discriminate.
Qed.

(** C9: with [main]'s table in place, every expression [ParseExpression]
    returns has only [<], [+], [-] and [*] as operators of its binary nodes;
    hence generating code for it, in any world, never writes the "invalid
    binary operator" diagnostic. *)
Theorem parser_binops_supported fuel w e w' :
  table_ok w ->
  ParseExpression fuel w = Ok (Some e) w' ->
  binops is_binop e /\
  forall w0 r w1, ExprAST_codegen e w0 = Ok r w1 -> no_invalid_binop w0 w1.
Proof.
  intros T H.
  destruct (proj1 (parser_invariant fuel) w (Some e) w' T H) as (_ & _ & He).
  specialize (He e eq_refl). split; [exact He|].
  intros w0 r w1. by apply ExprAST_codegen_no_invalid.
Qed.

(** The source [f(a, b+1) < 2*(c-3)]. *)
Lemma parser_binops_supported_witness :
  let src := "f(a, b+1) < 2*(c-3)" in
  let w := final ((installBinopPrecedence;; getNextToken)
                    (initialWorld src)) in
  let e :=
    BinaryExprAST "<"
      (CallExprAST "f"
         [VariableExprAST "a";
          BinaryExprAST "+" (VariableExprAST "b") (Num "1")])
      (BinaryExprAST "*" (Num "2")
         (BinaryExprAST "-" (VariableExprAST "c") (Num "3"))) in
  (table_ok w /\
   ParseExpression 20 w = Ok (Some e) (final (ParseExpression 20 w))) /\
  binops is_binop e.
Proof.
  intros src w e.
  assert (table_ok w) as T.
  { set (w0 := final (installBinopPrecedence (initialWorld src))).
    assert (table_ok w0) as T0.
    { apply (table_ok_installed (initialWorld src) tt); reflexivity. }
    assert (getNextToken w0 = Ok (CurTok w) w) as E'
      by (vm_compute; reflexivity).
    exact (proj1 (getNextToken_ok _ _ _ T0 E')). }
  assert (ParseExpression 20 w = Ok (Some e) (final (ParseExpression 20 w)))
    as H by (vm_compute; reflexivity).
  split; [auto|].
  exact (proj1 (parser_binops_supported 20 w e _ T H)).
Defined.

(** ** Results do not depend on the fuel *)

Lemma refines_refl {A} (m : M A) : refines m m.
Proof. by intros w a w'. Qed.

Lemma refines_bind {A B} (m m' : M A) (k k' : A -> M B) :
  refines m m' -> (forall a, refines (k a) (k' a)) ->
  refines (bind m k) (bind m' k').
Proof.
  intros Hm Hk w b w'. unfold bind.
  destruct (m w) as [a w1| |] eqn:E; [|done..].
  rewrite (Hm _ _ _ E). apply Hk.
Qed.

Lemma refines_out_of_fuel {A} (m : M A) : refines out_of_fuel m.
Proof. intros w a w' H. discriminate H. Qed.

Ltac refines_step :=
  first [ apply refines_out_of_fuel
        | apply refines_refl
        | (apply refines_bind; [|intros ?]) ].

(** More fuel never changes what the parser returns. *)
Lemma parser_fuel_mono n : forall m, n <= m ->
  refines (ParseExpression n) (ParseExpression m) /\
  refines (ParsePrimary n) (ParsePrimary m) /\
  refines (ParseParenExpr n) (ParseParenExpr m) /\
  refines (ParseIdentifierExpr n) (ParseIdentifierExpr m) /\
  (forall Args, refines (ParseCallArgs n Args) (ParseCallArgs m Args)) /\
  (forall ExprPrec LHS,
     refines (ParseBinOpRHS n ExprPrec LHS) (ParseBinOpRHS m ExprPrec LHS)).
Proof.
  induction n as [|n IH]; intros m Hle.
  { split_and!; intros; apply refines_out_of_fuel. }
  destruct m as [|m]; [lia|].
  destruct (IH m ltac:(lia)) as (IHe & IHp & IHparen & IHid & IHargs & IHbin).
  split_and!; intros; simpl;
    repeat first
      [ exact IHe | exact IHp | exact IHparen | exact IHid
      | apply IHargs | apply IHbin
      | refines_step
      | case_match ].
Qed.

Lemma ParseExpression_fuel_mono n m w r w' :
  n <= m -> ParseExpression n w = Ok r w' -> ParseExpression m w = Ok r w'.
Proof. intros Hle. by apply (parser_fuel_mono n m Hle). Qed.

(** ** Precedence climbing *)

Lemma take_drop_ge p rest : take_ge p rest ++ drop_ge p rest = rest.
Proof.
  induction rest as [|[o a] rest IH]; simpl; [done|].
  case_match; simpl; [by rewrite IH|done].
Qed.

Lemma drop_ge_length p rest : length (drop_ge p rest) <= length rest.
Proof.
  induction rest as [|[o a] rest IH]; simpl; [done|]. case_match; simpl; lia.
Qed.

Lemma head_prec_drop_ge p rest : (head_prec (drop_ge p rest) < p)%Z \/ drop_ge p rest = [].
Proof.
  induction rest as [|[o a] rest IH]; simpl; [by right|].
  destruct (Z.leb_spec p (main_precedence o)); [done|]. left. simpl. lia.
Qed.

Lemma take_ge_split p q rest :
  (p <= q)%Z ->
  take_ge p rest = take_ge q rest ++ take_ge p (drop_ge q rest).
Proof.
  intros Hpq. induction rest as [|[o a] rest IH]; simpl; [done|].
  destruct (Z.leb_spec q (main_precedence o)).
  - rewrite (proj2 (Z.leb_le _ _)) by lia. simpl. by rewrite IH.
  - simpl. reflexivity.
Qed.

Lemma drop_ge_drop_ge p q rest :
  (p <= q)%Z -> drop_ge p (drop_ge q rest) = drop_ge p rest.
Proof.
  intros Hpq. induction rest as [|[o a] rest IH]; simpl; [done|].
  destruct (Z.leb_spec q (main_precedence o)).
  - rewrite (proj2 (Z.leb_le _ _)) by lia. exact IH.
  - simpl. reflexivity.
Qed.

Lemma take_ge_all p rest :
  Forall (fun '(o, _) => (p <= main_precedence o)%Z) rest -> take_ge p rest = rest.
Proof.
  induction 1 as [|[o a] rest H _ IH]; simpl; [done|].
  rewrite (proj2 (Z.leb_le _ _)) by done. by rewrite IH.
Qed.

Lemma Forall_take_ge p rest :
  Forall (fun '(o, _) => (p <= main_precedence o)%Z) (take_ge p rest).
Proof.
  induction rest as [|[o a] rest IH]; simpl; [constructor|].
  destruct (Z.leb_spec p (main_precedence o)); constructor; done.
Qed.

Lemma tree_of_deeper o t R rest :
  Forall (fun '(o', _) => (main_precedence o + 1 <= main_precedence o')%Z) rest ->
  tree_of (BinaryExprAST o t R) rest = BinaryExprAST o t (tree_of R rest).
Proof.
  intros H. revert R. induction H as [|[o' a'] rest H _ IH]; intros R; [done|].
  unfold tree_of in *. simpl.
  rewrite (proj2 (Z.ltb_lt _ _)) by lia. apply IH.
Qed.

Lemma tree_of_app t l1 l2 : tree_of t (l1 ++ l2) = tree_of (tree_of t l1) l2.
Proof. unfold tree_of. apply foldl_app. Qed.

Lemma attach_root_ok t o a rest :
  root_ok t ((o, a) :: rest) -> attach t o (Num a) = BinaryExprAST o t (Num a).
Proof.
  destruct t as [| |r l r'|]; simpl; try done.
  intros H. by rewrite (proj2 (Z.ltb_ge _ _)).
Qed.

(** *** The lexer and the parser along a chain *)

Lemma is_binop_char o :
  is_binop o ->
  isspace (int_of_char o) = false /\ isalpha (int_of_char o) = false /\
  is_num_char (int_of_char o) = false /\ (int_of_char o =? EOF)%Z = false /\
  isascii (int_of_char o) = true.
Proof. intros [-> | [-> | [-> | ->]]]; vm_compute; done. Qed.

Lemma render_not_num rest : chain_ok rest -> starts_with is_num_char (render rest) = false.
Proof.
  intros H. destruct H as [|[o a] rest [Ho _] _]; simpl; [done|].
  by apply is_binop_char.
Qed.

Lemma getok_literal w a s :
  is_literal a -> starts_with is_num_char s = false ->
  lexer_at w (a +:+ s) ->
  getok w =
    Ok tok_number
      (set_numVal (strtod a) (set_lexer (getchar s).2 (getchar s).1 w)).
Proof.
  intros [Hne Ha] Hs Hat. destruct a as [|b a]; [done|].
  unfold lexer_at in Hat. rewrite append_cons in Hat. simpl in Hat.
  injection Hat as Hc Hin. simpl in Ha. apply andb_true_iff in Ha as [Hb Ha].
  unfold getok. rewrite Hc, Hin.
  rewrite skip_whitespace_eq, (is_num_char_not_space _ Hb).
  rewrite (is_num_char_not_alpha _ Hb), Hb.
  rewrite read_number_run by assumption. reflexivity.
Qed.

Lemma getok_render w rest :
  chain_ok rest -> lexer_at w (render rest) ->
  exists tok w',
    getNextToken w = Ok tok w' /\
    BinopPrecedence w' = BinopPrecedence w /\
    match rest with
    | [] => CurTok w' = tok_eof /\ lexer_at w' ""
    | (o, a) :: rest' =>
        CurTok w' = int_of_char o /\ lexer_at w' (a +:+ render rest')
    end.
Proof.
  intros Hok Hat. unfold lexer_at in Hat.
  destruct Hok as [|[o a] rest [Ho Ha] Hrest]; simpl in Hat.
  - injection Hat as Hc Hin.
    eexists _, _. unfold getNextToken, bind, modify, ret, getok.
    rewrite Hc, Hin. simpl. split; [reflexivity|]. simpl. done.
  - injection Hat as Hc Hin.
    destruct (is_binop_char o Ho) as (H1 & H2 & H3 & H4 & _).
    destruct (getchar (a +:+ render rest)) as [c' s'] eqn:E.
    eexists _, _. unfold getNextToken, bind, modify, ret, getok.
    rewrite Hc, Hin. rewrite skip_whitespace_eq, H1, H2, H3, H4, E.
    split; [reflexivity|]. simpl. split_and!; done.
Qed.

Lemma operand_step w o a rest :
  chain_ok ((o, a) :: rest) -> chain_at w ((o, a) :: rest) ->
  exists w',
    (forall fuel,
       (getNextToken;; ParsePrimary (S fuel)) w = Ok (Some (Num a)) w') /\
    chain_at w' rest.
Proof.
  intros Hok [HT [_ Hat]]. apply Forall_cons in Hok as [[Ho Ha] Hrest].
  pose proof (getok_literal w a (render rest) Ha (render_not_num _ Hrest) Hat) as E1.
  set (w1 := set_CurTok tok_number
               (set_numVal (strtod a)
                  (set_lexer (getchar (render rest)).2 (getchar (render rest)).1 w))).
  assert (getNextToken w = Ok tok_number w1) as E1'.
  { unfold getNextToken, bind, modify, ret. by rewrite E1. }
  assert (lexer_at w1 (render rest)) as Hat1.
  { unfold lexer_at. simpl. by destruct (getchar (render rest)). }
  destruct (getok_render w1 rest Hrest Hat1) as (tok2 & w2 & E2 & HT2 & H2).
  exists w2. split.
  - intros fuel. rewrite (bind_Ok _ _ _ _ _ E1'). simpl.
    unfold bind at 1, gets at 1. simpl.
    unfold ParseNumberExpr. rewrite bind_gets, (bind_Ok _ _ _ _ _ E2).
    reflexivity.
  - split; [by rewrite HT2|]. exact H2.
Qed.

Lemma main_table_lookup o : is_binop o -> main_table !! o = Some (main_precedence o).
Proof. intros [-> | [-> | [-> | ->]]]; vm_compute; reflexivity. Qed.

Lemma main_precedence_binop o : is_binop o -> (0 < main_precedence o <= 40)%Z.
Proof. intros [-> | [-> | [-> | ->]]]; vm_compute; split; congruence. Qed.

Lemma GetTokPrecedence_chain w rest :
  chain_ok rest -> chain_at w rest ->
  exists w', GetTokPrecedence w = Ok (head_prec rest) w' /\ chain_at w' rest /\
    CurTok w' = CurTok w.
Proof.
  intros Hok [HT H]. unfold GetTokPrecedence.
  destruct Hok as [|[o a] rest [Ho Ha] Hrest]; simpl.
  - destruct H as [Hc Hat]. rewrite Hc. simpl. eexists; split; [reflexivity|].
    split; [|done]. split; done.
  - destruct H as [Hc Hat]. rewrite Hc.
    destruct (is_binop_char o Ho) as (_ & _ & _ & _ & ->). simpl.
    rewrite char_of_int_of_char, HT, (main_table_lookup o Ho).
    rewrite (proj2 (Z.leb_gt _ _)) by (apply main_precedence_binop; done).
    eexists; split; [reflexivity|]. split; [|done]. split; done.
Qed.

Lemma take_ge_head_lt p rest :
  (head_prec rest < p)%Z -> take_ge p rest = [] /\ drop_ge p rest = rest.
Proof.
  destruct rest as [|[o a] rest]; simpl; [done|]. intros H.
  by rewrite (proj2 (Z.leb_gt _ _)).
Qed.

Lemma chain_ok_drop_ge p rest : chain_ok rest -> chain_ok (drop_ge p rest).
Proof.
  intros H. unfold chain_ok. rewrite <- (take_drop_ge p rest) in H.
  by apply Forall_app in H as [_ H].
Qed.

Lemma climb n : forall rest, length rest <= n ->
  forall fuel p t w,
    2 * length rest + 1 <= fuel ->
    (0 <= p)%Z -> chain_ok rest -> chain_at w rest -> root_ok t rest ->
    exists w',
      ParseBinOpRHS fuel p t w = Ok (Some (tree_of t (take_ge p rest))) w' /\
      chain_at w' (drop_ge p rest).
Proof.
  assert (forall fuel p t w, 1 <= fuel -> (0 <= p)%Z ->
            chain_ok [] -> chain_at w [] ->
            exists w', ParseBinOpRHS fuel p t w = Ok (Some t) w' /\
                       chain_at w' []) as Hnil.
  { intros fuel p t w Hfuel Hp Hok Hat. destruct fuel as [|fuel]; [lia|].
    destruct (GetTokPrecedence_chain w [] Hok Hat) as (w0 & E0 & Hat0 & _).
    exists w0. split; [|exact Hat0]. simpl.
    rewrite (bind_Ok _ _ _ _ _ E0). simpl.
    by rewrite (proj2 (Z.ltb_lt _ _)) by lia. }
  induction n as [|n IH]; intros rest Hlen fuel p t w Hfuel Hp Hok Hat Hroot.
  { destruct rest; [|simpl in Hlen; lia]. by apply Hnil. }
  destruct rest as [|[o a] r]; [by apply Hnil|].
  simpl in Hlen, Hfuel.
  destruct fuel as [|f]; [lia|].
  destruct (GetTokPrecedence_chain w _ Hok Hat) as (w0 & E0 & Hat0 & Hc0).
  simpl in E0.
  pose proof Hok as Hok'. apply Forall_cons in Hok' as [[Ho Ha] Hr].
  pose proof (main_precedence_binop o Ho) as HPo.
  destruct (Z.ltb_spec (main_precedence o) p) as [Hlt|Hge].
  { exists w0. simpl.
    rewrite (proj2 (Z.leb_gt _ _)) by done. split; [|exact Hat0].
    rewrite (bind_Ok _ _ _ _ _ E0). simpl.
    by rewrite (proj2 (Z.ltb_lt _ _)) by lia. }
  assert (CurTok w0 = int_of_char o) as HBin.
  { rewrite Hc0. by destruct Hat as [_ [? _]]. }
  (* the operand and the look-ahead precedence *)
  destruct (operand_step w0 o a r Hok Hat0) as (w2 & E2 & Hat2).
  destruct (GetTokPrecedence_chain w2 r Hr Hat2) as (w3 & E3 & Hat3 & _).
  (* the right-hand side *)
  set (q := (main_precedence o + 1)%Z).
  assert (exists w4,
    (if (main_precedence o <? head_prec r)%Z
     then (if (main_precedence o =? INT_MAX)%Z then undefined
           else ParseBinOpRHS f q (Num a))
     else ret (Some (Num a))) w3 =
      Ok (Some (tree_of (Num a) (take_ge q r))) w4 /\
    chain_at w4 (drop_ge q r)) as (w4 & E4 & Hat4).
  { destruct (Z.ltb_spec (main_precedence o) (head_prec r)) as [Hnext|Hnext].
    - rewrite (proj2 (Z.eqb_neq _ _)) by (unfold INT_MAX; lia).
      apply (IH r ltac:(lia) f q (Num a) w3); [lia|unfold q; lia|done..].
    - destruct (take_ge_head_lt q r ltac:(unfold q; lia)) as [-> ->].
      exists w3. done. }
  (* the rest of the loop *)
  set (R := tree_of (Num a) (take_ge q r)) in *.
  pose proof (drop_ge_length q r) as Hdrop.
  destruct (IH (drop_ge q r) ltac:(lia) f p (BinaryExprAST o t R) w4
              ltac:(lia) Hp (chain_ok_drop_ge q r Hr) Hat4)
    as (w5 & E5 & Hat5).
  { destruct (head_prec_drop_ge q r) as [H| ->]; [|done].
    destruct (drop_ge q r) as [|[o2 a2] r2]; [done|]. simpl in *.
    unfold q in H. lia. }
  exists w5. split.
  - destruct f as [|f']; [lia|].
    simpl ParseBinOpRHS.
    rewrite (bind_Ok _ _ _ _ _ E0).
    rewrite (proj2 (Z.ltb_ge _ _)) by done.
    rewrite bind_gets, HBin, char_of_int_of_char.
    rewrite <- bind_assoc. rewrite (bind_Ok _ _ _ _ _ (E2 f')).
    rewrite (bind_Ok _ _ _ _ _ E3).
    rewrite (bind_Ok _ _ _ _ _ E4).
    etrans; [exact E5|]. do 2 f_equal. symmetry.
    simpl take_ge. rewrite (proj2 (Z.leb_le _ _)) by done.
    unfold tree_of at 1. simpl foldl.
    fold (tree_of (attach t o (Num a)) (take_ge p r)).
    rewrite (attach_root_ok t o a r Hroot).
    rewrite (take_ge_split p q r) by (unfold q; lia).
    rewrite tree_of_app.
    rewrite (tree_of_deeper o t (Num a)) by apply Forall_take_ge.
    reflexivity.
  - simpl drop_ge. rewrite (proj2 (Z.leb_le _ _)) by done.
    rewrite <- (drop_ge_drop_ge p q r) by (unfold q; lia). exact Hat5.
Qed.

Lemma getok_leading_space w b s :
  nextChar w = 32%Z -> stdin w = String b s ->
  getok w = getok (set_lexer s (int_of_char b) w).
Proof.
  intros Hc Hin. unfold getok. rewrite Hc, Hin.
  rewrite skip_whitespace_eq. simpl isspace. cbv iota. simpl.
  reflexivity.
Qed.

Lemma ParseExpression_S fuel w :
  ParseExpression (S fuel) w =
    (do LHS <- ParsePrimary fuel;
     match LHS with
     | None => ret None
     | Some LHS => ParseBinOpRHS fuel 0%Z LHS
     end) w.
Proof. reflexivity. Qed.

Lemma ParsePrimary_number fuel w :
  CurTok w = tok_number -> ParsePrimary (S fuel) w = ParseNumberExpr w.
Proof. intros H. simpl. rewrite bind_gets, H. reflexivity. Qed.

Lemma chain_parses a0 rest fuel :
  is_literal a0 -> chain_ok rest ->
  2 * length rest + 3 <= fuel ->
  parse_expression fuel (chain_source a0 rest) =
    Some (Some (tree_of (Num a0) rest)).
Proof.
  intros Ha0 Hok Hfuel.
  unfold parse_expression, chain_source.
  unfold installBinopPrecedence. rewrite bind_modify.
  set (w0 := set_BinopPrecedence _ _).
  assert (BinopPrecedence w0 = main_table) as HT by reflexivity.
  (* the first token *)
  assert (exists w1, getNextToken w0 = Ok tok_number w1 /\
            BinopPrecedence w1 = main_table /\ CurTok w1 = tok_number /\
            numVal w1 = strtod a0 /\ lexer_at w1 (render rest))
    as (w1 & E1 & HT1 & Hc1 & Hv1 & Hat1).
  { destruct Ha0 as [Hne Hnum]. destruct a0 as [|b a0]; [done|].
    eexists. unfold getNextToken.
    erewrite (bind_Ok getok); cycle 1.
    { rewrite (getok_leading_space w0 b (a0 +:+ render rest)) by done.
      apply (getok_literal _ (String b a0) (render rest)).
      - done.
      - by apply render_not_num.
      - unfold lexer_at. reflexivity. }
    rewrite bind_modify. unfold ret. split; [reflexivity|]. simpl.
    split_and!; try done. unfold lexer_at. simpl.
    by destruct (getchar (render rest)). }
  rewrite (bind_Ok _ _ _ _ _ E1).
  destruct fuel as [|[|f]]; [lia..|].
  destruct (getok_render w1 rest Hok Hat1) as (tok2 & w2 & E2 & HT2 & H2).
  assert (chain_at w2 rest) as Hat2 by (split; [congruence|done]).
  destruct (climb (length rest) rest (le_n _) (S f) 0 (Num a0) w2
              ltac:(lia) ltac:(lia) Hok Hat2 I) as (w3 & E3 & _).
  rewrite ParseExpression_S.
  erewrite (bind_Ok (ParsePrimary (S f))); cycle 1.
  { rewrite (ParsePrimary_number f w1 Hc1).
    unfold ParseNumberExpr. rewrite bind_gets, Hv1.
    rewrite (bind_Ok _ _ _ _ _ E2). reflexivity. }
  cbv iota. fold (Num a0). rewrite E3. simpl. do 2 f_equal. f_equal. apply take_ge_all.
  eapply Forall_impl; [exact Hok|]. intros [o a] [Ho _].
  pose proof (main_precedence_binop o Ho). lia.
Qed.

(** *** The tree of a chain is the precedence-ordered one *)

Lemma in_order_attach t o a :
  in_order (attach t o (Num a)) = in_order t ++ [inl o; inr (Num a)].
Proof.
  induction t as [Val|Name|Op LHS RHS IHL IHR|Callee Args _]
    using ExprAST_ind; simpl; try done.
  case_match; simpl; [|done].
  rewrite IHR. by rewrite <- app_assoc.
Qed.

Lemma in_order_tree_of t rest :
  in_order (tree_of t rest) =
    in_order t ++ flat_map (fun '(o, a) => [inl o; inr (Num a)]) rest.
Proof.
  revert t. induction rest as [|[o a] rest IH]; intros t; simpl.
  - by rewrite app_nil_r.
  - unfold tree_of in *. simpl. rewrite IH, in_order_attach.
    by rewrite <- app_assoc.
Qed.

Lemma root_at_least_attach p t o a :
  root_at_least p t -> (p <= main_precedence o)%Z ->
  root_at_least p (attach t o (Num a)).
Proof.
  destruct t as [| |o' l r|]; simpl; try done.
  intros H1 H2. by case_match.
Qed.

Lemma precedence_ordered_attach t o a :
  precedence_ordered t -> precedence_ordered (attach t o (Num a)).
Proof.
  induction t as [Val|Name|Op LHS RHS IHL IHR|Callee Args _]
    using ExprAST_ind; simpl; try done.
  intros (HL & HR & HrL & HrR).
  destruct (Z.ltb_spec (main_precedence Op) (main_precedence o)); simpl.
  - split_and!; auto. apply root_at_least_attach; [done|lia].
  - split_and!; auto.
Qed.

Lemma precedence_ordered_tree_of t rest :
  precedence_ordered t -> precedence_ordered (tree_of t rest).
Proof.
  revert t. induction rest as [|[o a] rest IH]; intros t Ht; [done|].
  unfold tree_of in *. simpl. by apply IH, precedence_ordered_attach.
Qed.

Lemma in_order_nonempty e : in_order e <> [].
Proof.
  destruct e; simpl; try done. by destruct (in_order e1).
Qed.

Lemma ops_at_least p e o :
  precedence_ordered e -> root_at_least p e ->
  inl o ∈ in_order e -> (p <= main_precedence o)%Z.
Proof.
  revert p. induction e as [Val|Name|Op LHS RHS IHL IHR|Callee Args _]
    using ExprAST_ind; intros p Hord Hroot Hin; simpl in *.
  - apply list_elem_of_singleton in Hin. done.
  - apply list_elem_of_singleton in Hin. done.
  - destruct Hord as (HL & HR & HrL & HrR).
    apply elem_of_app in Hin as [Hin|Hin].
    { pose proof (IHL _ HL HrL Hin). lia. }
    apply elem_of_cons in Hin as [[= ->]|Hin]; [done|].
    pose proof (IHR _ HR HrR Hin). lia.
  - apply list_elem_of_singleton in Hin. done.
Qed.

Lemma app_cons_eq_inv {A} (l1 l2 r1 r2 : list A) x y :
  l1 ++ x :: r1 = l2 ++ y :: r2 ->
  (l1 = l2 /\ x = y /\ r1 = r2) \/
  (exists k, l2 = l1 ++ x :: k /\ r1 = k ++ y :: r2) \/
  (exists k, l1 = l2 ++ y :: k /\ r2 = k ++ x :: r1).
Proof.
  revert l2. induction l1 as [|a l1 IH]; intros l2 H.
  - destruct l2 as [|b l2]; simpl in H.
    + injection H as -> ->. by left.
    + injection H as -> ->. right; left. by exists l2.
  - destruct l2 as [|b l2]; simpl in H.
    + injection H as -> <-. right; right. by exists l1.
    + injection H as -> H. destruct (IH _ H) as [(-> & -> & ->)|[[k [-> ->]]|[k [-> ->]]]].
      * by left.
      * right; left. by exists k.
      * right; right. by exists k.
Qed.

(** The tokens in order and the precedence ordering determine the tree. *)
Lemma precedence_ordered_unique e1 : forall e2,
  precedence_ordered e1 -> precedence_ordered e2 ->
  in_order e1 = in_order e2 -> e1 = e2.
Proof.
  induction e1 as [Val|Name|Op L1 R1 IHL IHR|Callee Args _]
    using ExprAST_ind; intros e2 H1 H2 Heq.
  1,2,4: destruct e2 as [| |o2 l2 r2|]; simpl in Heq; try congruence;
         pose proof (in_order_nonempty l2);
         destruct (in_order l2) as [|? [|? ?]]; simpl in Heq; done.
  destruct e2 as [| |o2 l2 r2|].
  1,2,4: simpl in Heq; pose proof (in_order_nonempty L1);
         destruct (in_order L1) as [|? [|? ?]]; simpl in Heq; done.
  simpl in Heq. destruct H1 as (HL1 & HR1 & HrL1 & HrR1).
  destruct H2 as (HL2 & HR2 & HrL2 & HrR2).
  destruct (app_cons_eq_inv _ _ _ _ _ _ Heq)
    as [(EL & [= ->] & ER)|[[k [EL ER]]|[k [EL ER]]]].
  - f_equal; [by apply IHL|by apply IHR].
  - exfalso.
    assert (inl Op ∈ in_order l2) as Hin1 by (rewrite EL; set_solver).
    assert (inl o2 ∈ in_order R1) as Hin2 by (rewrite ER; set_solver).
    pose proof (ops_at_least _ _ _ HL2 HrL2 Hin1).
    pose proof (ops_at_least _ _ _ HR1 HrR1 Hin2). lia.
  - exfalso.
    assert (inl o2 ∈ in_order L1) as Hin1 by (rewrite EL; set_solver).
    assert (inl Op ∈ in_order r2) as Hin2 by (rewrite ER; set_solver).
    pose proof (ops_at_least _ _ _ HL1 HrL1 Hin1).
    pose proof (ops_at_least _ _ _ HR2 HrR2 Hin2). lia.
Qed.

(** C1: with [main]'s table, [1+2*3] parses as [1+(2*3)], [(1+2)*3] as
    [(1+2)*3] and [1-2-3] as [(1-2)-3]; and every chain of numeric literals
    separated by operators of the table, of any length, parses (given fuel
    proportional to its length) to a tree that keeps the tokens in source
    order and in which a higher precedence binds deeper and equal
    precedences group to the left.  (By [precedence_ordered_unique] there is
    only one such tree.) *)
Theorem precedence_climbing :
  parse_expression 12 "1+2*3" =
    Some (Some (BinaryExprAST "+" (Num "1")
                  (BinaryExprAST "*" (Num "2") (Num "3")))) /\
  parse_expression 12 "(1+2)*3" =
    Some (Some (BinaryExprAST "*"
                  (BinaryExprAST "+" (Num "1") (Num "2")) (Num "3"))) /\
  parse_expression 12 "1-2-3" =
    Some (Some (BinaryExprAST "-"
                  (BinaryExprAST "-" (Num "1") (Num "2")) (Num "3"))) /\
  forall (a0 : string) (rest : chain) (fuel : nat),
    is_literal a0 -> chain_ok rest -> 2 * length rest + 3 <= fuel ->
    exists e,
      parse_expression fuel (chain_source a0 rest) = Some (Some e) /\
      in_order e = chain_tokens a0 rest /\
      precedence_ordered e.
Proof.
  split; [vm_compute; reflexivity|].
  split; [vm_compute; reflexivity|].
  split; [vm_compute; reflexivity|].
  intros a0 rest fuel Ha0 Hok Hfuel.
  exists (tree_of (Num a0) rest). split_and!.
  - by apply chain_parses.
  - by rewrite in_order_tree_of.
  - by apply precedence_ordered_tree_of.
Qed.

(** [1<2+3*4-5]: the product is deepest, the sum and the difference group
    to the left below the comparison. *)
Lemma precedence_climbing_witness :
  let rest : chain :=
    [("<"%char, "2"); ("+"%char, "3"); ("*"%char, "4"); ("-"%char, "5")] in
  (is_literal "1" /\ chain_ok rest /\ 2 * length rest + 3 <= 11) /\
  chain_source "1" rest = "1<2+3*4-5" /\
  parse_expression 11 "1<2+3*4-5" =
    Some (Some
      (BinaryExprAST "<" (Num "1")
         (BinaryExprAST "-"
            (BinaryExprAST "+" (Num "2")
               (BinaryExprAST "*" (Num "3") (Num "4")))
            (Num "5")))) /\
  exists e,
    parse_expression 11 "1<2+3*4-5" = Some (Some e) /\
    in_order e = chain_tokens "1" rest /\ precedence_ordered e.
Proof.
  intros rest.
  assert (forall a, a = "1" \/ a = "2" \/ a = "3" \/ a = "4" \/ a = "5" ->
            is_literal a) as Hlit.
  { intros a [-> | [-> | [-> | [-> | ->]]]]; split; done. }
  assert (is_literal "1") as H1 by auto.
  assert (chain_ok rest) as H2.
  { repeat first [apply List.Forall_nil | apply List.Forall_cons];
      (split; [unfold is_binop; auto|apply Hlit; auto 6]). }
  assert (2 * length rest + 3 <= 11) as H3 by (simpl; lia).
  split; [auto|]. split; [reflexivity|]. split; [vm_compute; reflexivity|].
  exact (proj2 (proj2 (proj2 precedence_climbing)) "1" rest 11 H1 H2 H3).
Defined.

(** ** An invariant of the whole run *)

Lemma ParsePrototypeArgs_ok fuel : forall ArgNames,
  parser_ok (fun _ _ => True) (ParsePrototypeArgs fuel ArgNames).
Proof.
  induction fuel as [|fuel IH]; intros ArgNames; simpl.
  { unfold parser_ok; intros; discriminate. }
  eapply parser_ok_bind; [apply getNextToken_ok|]. intros tok _.
  case_match; [|by apply parser_ok_ret].
  eapply parser_ok_bind; [apply gets_ok|]. intros id _. apply IH.
Qed.

Lemma ParsePrototype_ok fuel :
  parser_ok (fun _ _ => True) (ParsePrototype fuel).
Proof.
  unfold ParsePrototype.
  eapply parser_ok_bind; [apply gets_ok|]. intros tok _.
  case_match; [by apply (LogError_ok (fun _ => True))|].
  eapply parser_ok_bind; [apply gets_ok|]. intros FnName _.
  eapply parser_ok_bind; [apply getNextToken_ok|]. intros _ _.
  eapply parser_ok_bind; [apply gets_ok|]. intros tok' _.
  case_match; [by apply (LogError_ok (fun _ => True))|].
  eapply parser_ok_bind; [apply ParsePrototypeArgs_ok|]. intros ArgNames _.
  eapply parser_ok_bind; [apply gets_ok|]. intros tok'' _.
  case_match; [by apply (LogError_ok (fun _ => True))|].
  eapply parser_ok_bind; [apply getNextToken_ok|]. intros _ _.
  by apply parser_ok_ret.
Qed.

Lemma ParseExpression_ok fuel :
  parser_ok (fun _ _ => True) (ParseExpression fuel).
Proof.
  eapply parser_ok_weaken; [apply parser_invariant|]. done.
Qed.

Lemma ParseDefinition_ok fuel :
  parser_ok (fun _ _ => True) (ParseDefinition fuel).
Proof.
  unfold ParseDefinition.
  eapply parser_ok_bind; [apply getNextToken_ok|]. intros _ _.
  eapply parser_ok_bind; [apply ParsePrototype_ok|]. intros [P|] _;
    [|by apply parser_ok_ret].
  eapply parser_ok_bind; [apply ParseExpression_ok|].
  intros [E|] _; by apply parser_ok_ret.
Qed.

Lemma ParseExtern_ok fuel : parser_ok (fun _ _ => True) (ParseExtern fuel).
Proof.
  unfold ParseExtern.
  eapply parser_ok_bind; [apply getNextToken_ok|]. intros _ _.
  apply ParsePrototype_ok.
Qed.

Lemma ParseTopLevelExpr_ok fuel :
  parser_ok (fun _ _ => True) (ParseTopLevelExpr fuel).
Proof.
  unfold ParseTopLevelExpr.
  eapply parser_ok_bind; [apply ParseExpression_ok|].
  intros [E|] _; by apply parser_ok_ret.
Qed.

#[local] Instance driver_inv_preserved_preorder :
  PreOrder (fun w w' : World => driver_inv w -> driver_inv w').
Proof. split; [by intros w|]. intros w1 w2 w3 H1 H2 H. auto. Qed.

Lemma parser_keeps_inv {A} (Q : A -> World -> Prop) (m : M A) :
  parser_ok Q m -> keeps_inv m.
Proof.
  intros H w a w' E [T W]. destruct (H _ _ _ T E) as (T' & S & _).
  split; [done|]. injection S as -> _ _. done.
Qed.

Lemma eprint_keeps_inv o : keeps_inv (eprint o).
Proof. by intros w a w' [= _ <-]. Qed.

Lemma cg_frame_keeps_inv w w' : cg_frame w w' -> driver_inv w -> driver_inv w'.
Proof.
  intros H [T W]. split.
  - intros c. destruct (fr_lexer _ _ H) as (_ & _ & _ & _ & _ & ->). apply T.
  - eapply wfModule_same_names; [|exact W]. by apply cg_frame_same_names.
Qed.

Lemma PrototypeAST_codegen_keeps_inv P : keeps_inv (PrototypeAST_codegen P).
Proof.
  intros w a w' E [T W]. rewrite PrototypeAST_codegen_eq in E.
  injection E as _ <-. split; [exact T|]. simpl.
  by apply wfModule_Function_Create.
Qed.

Lemma eraseFromParent_keeps_inv F : keeps_inv (eraseFromParent F).
Proof.
  intros w [] w' E [T W]. split.
  - unfold eraseFromParent in E. case_match; [|done].
    injection E as <-. exact T.
  - by destruct (wfModule_erase F w w' W E).
Qed.

Lemma printFunction_keeps_inv F : keeps_inv (printFunction F).
Proof.
  unfold printFunction.
  apply respects_bind; [apply _|apply respects_gets, _|].
  intros [Fn|]; [apply eprint_keeps_inv|apply respects_undefined].
Qed.

Lemma FunctionAST_codegen_keeps_inv Fn : keeps_inv (FunctionAST_codegen Fn).
Proof.
  intros w r w' E [T W].
  destruct (prologue_spec Fn w W)
    as (F & decl & w1 & EP & _ & _ & _ & W1 & _ & _ & _ & _).
  assert (table_ok w1) as T1.
  { unfold FunctionAST_prologue in EP. revert EP.
    unfold bind at 1, gets at 1.
    assert (forall m1 : M (option nat),
      (forall w0 a w0', m1 w0 = Ok a w0' ->
         BinopPrecedence w0' = BinopPrecedence w0) ->
      forall a, m1 w = Ok a w1 -> table_ok w1) as Hk.
    { intros m1 Hm a Ha c. rewrite (Hm _ _ _ Ha). apply T. }
    apply Hk. clear. intros w0 a w0'.
    unfold bind, PrototypeAST_codegen, BasicBlock_Create_SetInsertPoint,
      gets, modify, ret, undefined.
    repeat (case_match; simplify_eq; try done);
      intros; simplify_eq; done. }
  unfold FunctionAST_codegen in E. rewrite (bind_Ok _ _ _ _ _ EP) in E.
  revert E. unfold bind at 1.
  destruct (ExprAST_codegen (Body Fn) w1) as [[V|] w2| |] eqn:EB; [| |done..].
  - pose proof (cg_frame_keeps_inv _ _ (ExprAST_codegen_frame _ _ _ _ EB)
                  (conj T1 W1)) as I2.
    unfold bind, CreateRet.
    destruct (Insert (ReturnInst V) w2) as [I w3| |] eqn:EI; [|done..].
    intros [= _ <-].
    exact (cg_frame_keeps_inv _ _ (Insert_frame _ _ _ _ EI) I2).
  - pose proof (cg_frame_keeps_inv _ _ (ExprAST_codegen_frame _ _ _ _ EB)
                  (conj T1 W1)) as I2.
    unfold bind.
    destruct (eraseFromParent F w2) as [[] w3| |] eqn:EE; [|done..].
    intros [= _ <-]. exact (eraseFromParent_keeps_inv F _ _ _ EE I2).
Qed.

Ltac keeps_inv_step :=
  first
    [ apply respects_ret, _
    | apply eprint_keeps_inv
    | apply printFunction_keeps_inv
    | apply eraseFromParent_keeps_inv
    | apply FunctionAST_codegen_keeps_inv
    | apply PrototypeAST_codegen_keeps_inv
    | apply (parser_keeps_inv _ _ getNextToken_ok)
    | apply respects_gets, _
    | (apply respects_bind; [apply _| |intros ?]) ].

Lemma HandleDefinition_keeps_inv fuel : keeps_inv (HandleDefinition fuel).
Proof.
  unfold HandleDefinition.
  apply respects_bind;
    [apply _|apply (parser_keeps_inv _ _ (ParseDefinition_ok fuel))|].
  intros [FnAST|]; repeat (repeat case_match; keeps_inv_step).
Qed.

Lemma HandleExtern_keeps_inv fuel : keeps_inv (HandleExtern fuel).
Proof.
  unfold HandleExtern.
  apply respects_bind;
    [apply _|apply (parser_keeps_inv _ _ (ParseExtern_ok fuel))|].
  intros [P|]; repeat (repeat case_match; keeps_inv_step).
Qed.

Lemma HandleTopLevelExpression_keeps_inv fuel :
  keeps_inv (HandleTopLevelExpression fuel).
Proof.
  unfold HandleTopLevelExpression.
  apply respects_bind;
    [apply _|apply (parser_keeps_inv _ _ (ParseTopLevelExpr_ok fuel))|].
  intros [FnAST|]; repeat (repeat case_match; keeps_inv_step).
Qed.

Lemma MainLoop_keeps_inv fuel : keeps_inv (MainLoop fuel).
Proof.
  induction fuel as [|fuel IH]; simpl; [intros w a w' E; discriminate E|].
  apply respects_bind; [apply _|apply eprint_keeps_inv|]. intros _.
  apply respects_bind; [apply _|apply respects_gets, _|]. intros tok.
  repeat case_match;
    repeat first
      [ exact IH
      | apply HandleDefinition_keeps_inv
      | apply HandleExtern_keeps_inv
      | apply HandleTopLevelExpression_keeps_inv
      | keeps_inv_step ].
Qed.

(** Whatever the input, when [main] returns from its loop the precedence
    table is the one it installed and every name of the module identifies
    exactly one function; by the lemmas above every handler of a top-level
    form preserves this, so it holds whenever code generation starts. *)
Lemma main_keeps_inv fuel input a w :
  main fuel (initialWorld input) = Ok a w -> driver_inv w.
Proof.
  unfold main. unfold bind at 1.
  destruct (installBinopPrecedence (initialWorld input)) as [[] w0| |] eqn:E0;
    [|done..].
  pose proof (table_ok_installed (initialWorld input) _ _ eq_refl E0) as T0.
  unfold bind at 1, eprint at 1, modify at 1.
  unfold bind at 1.
  destruct (getNextToken _) as [tok w1| |] eqn:E1; [|done..].
  assert (table_ok (set_stderr (stderr w0 ++ [Text "ready> "]) w0)) as T0'
    by exact T0.
  destruct (getNextToken_ok _ _ _ T0' E1) as (T1 & _ & _).
  unfold bind at 1, InitializeModuleAndPassManager, modify.
  intros E. eapply (MainLoop_keeps_inv fuel); [exact E|].
  split; [exact T1|apply wfModule_empty].
Qed.
